(** * Chess games dashboard: the filter and aggregation pipeline

    A shallow embedding of [chess_dashboard.py].  The script is a straight
    line of pandas calls; every call is modelled by a total function on
    lists, in the order the script makes them.

    - A pandas [Series] is the list of its cells in row order; a cell of
      type [option A] is [None] where pandas holds [NaN].
    - A boolean [Series] (a mask) is a [list bool].
    - The [DataFrame] of games is the list of its rows, a [Game] per row,
      a record field per column the script reads.
    - A [Series] indexed by labels (the result of [value_counts]) is an
      association list from label to value, in index order.
    - [float64] results (sums of counts, means, percentages) are exact
      rationals [Q], which leaves rounding out; the rated percentage is
      given a second time on binary64 numbers (module [F64]), where its
      two roundings show.
    - [load_data] and the download work on whole columns of any dtype;
      there a frame is the list of its named columns (module [Loader]),
      and the text of a table is the list of its records of fields
      (module [Csv]). *)

From stdpp Require Import base list strings sorting pretty.
From Stdlib Require Import QArith Ascii.
From Stdlib Require PrimFloat FloatOps SpecFloat.

Local Open Scope Z_scope.

(** ** pandas operations *)

Section series.
Context {A : Type} `{EqDecision A}.

(** [Series.isin(values)]: cell by cell, whether the cell is one of
    [values].  pandas matches a [NaN] cell against a [NaN] in [values],
    which is equality on [option A]. *)
Definition isin (s : list (option A)) (values : list (option A)) : list bool :=
  (λ v, bool_decide (v ∈ values)) <$> s.

(** [Series == scalar]: a [NaN] cell compares unequal. *)
Definition series_eq (s : list (option A)) (x : A) : list bool :=
  (λ v, bool_decide (v = Some x)) <$> s.

(** [Series.dropna()]. *)
Definition dropna (s : list (option A)) : list A :=
  omap id s.

(** [Series.unique()]: the distinct cells in order of first appearance;
    [seen] is the hash table of the cells met so far. *)
Fixpoint unique_from (seen : list A) (s : list A) : list A :=
  match s with
  | [] => []
  | x :: s =>
      if decide (x ∈ seen) then unique_from seen s
      else x :: unique_from (x :: seen) s
  end.

Definition unique (s : list A) : list A := unique_from [] s.

(** Number of cells equal to [x]. *)
Definition count (x : A) (s : list A) : nat :=
  length (filter (λ y, y = x) s).
End series.

(** Element-wise [&] and [|] of two masks. *)
Definition mask_and (m1 m2 : list bool) : list bool := zip_with andb m1 m2.
Definition mask_or (m1 m2 : list bool) : list bool := zip_with orb m1 m2.

Infix "&&&" := mask_and (at level 40, left associativity).
Infix "|||" := mask_or (at level 50, left associativity).

(** [df[mask]]: the rows whose mask cell is [True], in row order.  The
    masks of the script are computed from the frame they select from, so
    they are aligned with it position by position. *)
Fixpoint select {R : Type} (df : list R) (mask : list bool) : list R :=
  match df, mask with
  | r :: df, b :: mask => if b then r :: select df mask else select df mask
  | _, _ => []
  end.

(** Stable insertion sort for a boolean order [le]: among cells that
    compare equal the earlier one stays first.  It stands for Python's
    [sorted] and for [sort_values]; numpy leaves the order of ties of
    [sort_values] open, and the model fixes it to the stable one. *)
Section sort_by.
Context {R : Type} (le : R → R → bool).

Fixpoint insert_by (x : R) (l : list R) : list R :=
  match l with
  | [] => [x]
  | y :: l' => if le x y then x :: l else y :: insert_by x l'
  end.

Definition sort_by (l : list R) : list R := foldr insert_by [] l.
End sort_by.

(** [DataFrame.head(n)] and [Series.head(n)]. *)
Definition head {R : Type} (n : nat) (df : list R) : list R := take n df.

(** [s[label]] where the label may be absent. *)
Fixpoint loc {V : Type} (k : string) (s : list (string * V)) : option V :=
  match s with
  | [] => None
  | (k', v) :: s => if decide (k = k') then Some v else loc k s
  end.

(** ** Load data *)

(** [load_data] works on whole columns, whatever they hold, so the frame
    it handles is kept as pandas keeps it: the ordered list of its named
    columns.  [read_csv] is the source of the input: [load_data] is
    modelled from the frame [read_csv] returned. *)
Module Loader.
(** A frame with the default positional index. *)
Abbreviation RawFrame Cell := (list (string * list Cell)) (only parsing).

Section load_data.
Context {Cell : Type}.

(** A frame whose index is a column of labels, duplicates allowed. *)
Record Frame := mkFrame {
  index_name : string;
  index : list Cell;
  columns : list (string * list Cell)
}.

(** [df.drop(labels, axis=1, errors='ignore')]: the named columns are
    removed; a name that is no column is skipped. *)
Definition drop (labels : list string) (df : RawFrame Cell) : RawFrame Cell :=
  filter (λ col, col.1 ∉ labels) df.

(** [df.set_index(name)]: the named column becomes the index and leaves
    the columns; [None] is the [KeyError] for a missing column.
    [verify_integrity] is left at its default [False], so the labels
    are taken as they are. *)
Definition set_index (name : string) (df : RawFrame Cell) : option Frame :=
  match loc name df with
  | Some labels =>
      Some {| index_name := name;
              index := labels;
              columns := filter (λ col, col.1 ≠ name) df |}
  | None => None
  end.

Definition load_data (csv : RawFrame Cell) : option Frame :=
  set_index "game_id" (drop ["Unnamed: 15"; "moves"]%string csv).
End load_data.

Arguments Frame : clear implicits.
End Loader.

(** ** The table of games *)

(** A row of the loaded table.  [game_id] is the index label of the row,
    kept as text; the other fields are the columns the script reads. *)
Record Game := mkGame {
  game_id : string;
  rated : option bool;
  turns : option Z;
  victory_status : option string;
  winner : option string;
  time_increment : option string;
  opening_shortname : option string;
  white_id : option string;
  black_id : option string
}.

(** ** Sidebar filters *)

(** The five selections returned by the [multiselect] widgets. *)
Record Criteria := mkCriteria {
  rated_options : list (option bool);
  victory_options : list (option string);
  time_increments : list (option string);
  openings : list (option string);
  players : list (option string)
}.

(** Python's [sorted] on strings: by code point order. *)
Definition sorted (l : list string) : list string :=
  sort_by String.leb l.

(** The option list of a widget: [sorted(col.dropna().unique())]. *)
Definition options (col : list (option string)) : list string :=
  sorted (unique (dropna col)).

(** The selections before the user touches the sidebar: every option of
    the first four widgets, and no player. *)
Definition default_criteria (chess : list Game) : Criteria :=
  {| rated_options := [Some true; Some false];
     victory_options := Some <$> options (victory_status <$> chess);
     time_increments := Some <$> options (time_increment <$> chess);
     openings := Some <$> options (opening_shortname <$> chess);
     players := [] |}.

(** ** Apply filters *)

Definition filtered (c : Criteria) (chess : list Game) : list Game :=
  let filtered :=
    select chess
      (isin (rated <$> chess) (rated_options c) &&&
       isin (victory_status <$> chess) (victory_options c) &&&
       isin (time_increment <$> chess) (time_increments c) &&&
       isin (opening_shortname <$> chess) (openings c)) in
  if decide (players c ≠ []) then
    select filtered
      (isin (white_id <$> filtered) (players c) |||
       isin (black_id <$> filtered) (players c))
  else filtered.

(** ** Metrics *)

Local Open Scope Q_scope.

Definition num_games (filtered : list Game) : nat := length filtered.

(** [Series.mean()]: the mean of the cells that are not [NaN], and [NaN]
    ([None]) when there is none; pandas raises nothing here. *)
Definition mean (s : list (option Z)) : option Q :=
  match dropna s with
  | [] => None
  | vals => Some (inject_Z (foldr Z.add 0%Z vals) / inject_Z (Z.of_nat (length vals)))
  end.

Definition avg_turns (filtered : list Game) : option Q :=
  mean (turns <$> filtered).

(** [filtered["rated"].sum()]: the number of [True] cells. *)
Definition rated_sum (filtered : list Game) : nat :=
  count true (dropna (rated <$> filtered)).

(** The formula of line 49 over exact rationals; [F64.rated_pct] below is
    the same formula with the roundings of [float64]. *)
Definition rated_pct (filtered : list Game) : Q :=
  if decide (0 < num_games filtered)%nat then
    (inject_Z (Z.of_nat (rated_sum filtered))
       / inject_Z (Z.of_nat (num_games filtered))) * 100
  else 0.

(** *** The rated percentage in binary64 *)

(** Line 49 computes in [float64]: the sum and the number of rows become
    [float64] numbers, their quotient is rounded, and so is its product
    with 100.  [F64.rated_pct] is that computation on binary64 numbers; the
    literal 0 of the empty table is the number 0. *)
Module F64.
Import PrimFloat.

(** The [float64] nearest to an integer, ties to even. *)
Definition of_Z (z : Z) : float :=
  FloatOps.SF2Prim
    (SpecFloat.binary_normalize FloatOps.prec FloatOps.emax z 0 false).

Definition of_count (n : nat) : float := of_Z (Z.of_nat n).

Definition rated_pct (filtered : list Game) : float :=
  if decide (0 < num_games filtered)%nat then
    (of_count (rated_sum filtered) / of_count (num_games filtered)) * 100
  else 0.

(** The rational number a finite [float64] is. *)
Definition to_Q (x : float) : option Q :=
  match FloatOps.Prim2SF x with
  | SpecFloat.S754_zero _ => Some 0%Q
  | SpecFloat.S754_finite neg m e =>
      let q := if decide (0 ≤ e)%Z then inject_Z (Z.pos m * 2 ^ e)
               else (Z.pos m # Z.to_pos (2 ^ (- e)))%Q in
      Some (if neg then - q else q)%Q
  | _ => None
  end.
End F64.

(** ** Series with an index of labels *)

(** [Series.value_counts()]: [NaN] cells dropped, one entry per distinct
    cell with the number of its occurrences, largest count first. *)
Definition value_counts (s : list (option string)) : list (string * nat) :=
  let vals := dropna s in
  sort_by (λ a b : string * nat, b.2 <=? a.2)%nat ((λ k, (k, count k vals)) <$> unique vals).

(** The index two series are aligned on ([Index.join], outer): the index
    itself when both are equal, and the sorted union of the labels
    otherwise. *)
Definition index_join (i1 i2 : list string) : list string :=
  if decide (i1 = i2) then i1 else sorted (unique (i1 ++ i2)).

(** [s1.add(s2, fill_value=0)] on two series of counts: a label missing
    on one side counts as 0 there; the result is [float64]. *)
Definition add_fill0 (s1 s2 : list (string * nat)) : list (string * Q) :=
  (λ k, (k, inject_Z (Z.of_nat (default 0%nat (loc k s1)))
            + inject_Z (Z.of_nat (default 0%nat (loc k s2)))))
    <$> index_join (s1.*1) (s2.*1).

(** [s1 / s2]: no fill value, so a label missing on either side gives
    [NaN]. *)
Definition series_div (s1 s2 : list (string * Q)) : list (string * option Q) :=
  (λ k, (k, match loc k s1, loc k s2 with
            | Some a, Some b => Some (a / b)
            | _, _ => None
            end))
    <$> index_join (s1.*1) (s2.*1).

Definition series_mul (s : list (string * option Q)) (x : Q)
  : list (string * option Q) :=
  (λ kv : string * option Q, (kv.1, (λ q, q * x) <$> kv.2)) <$> s.

(** ** Plot 7: top openings by white wins *)

Definition white_won (filtered : list Game) : list Game :=
  select filtered (series_eq (winner <$> filtered) "White"%string).

Definition black_won (filtered : list Game) : list Game :=
  select filtered (series_eq (winner <$> filtered) "Black"%string).

(** The script takes [head(10)] and rebinds the name [openings] to the
    result; [top_openings] has the 10 as a parameter. *)
Definition top_openings (n : nat) (filtered : list Game) : list (string * nat) :=
  head n (value_counts (opening_shortname <$> white_won filtered)).

Definition openings_by_white_wins (filtered : list Game) : list (string * nat) :=
  top_openings 10 filtered.

(** ** Plot 8: top players *)

(** A row of the frame built from the two series [Games] and [WinRate]. *)
Record PlayerRow := mkPlayerRow {
  Player : string;
  Games : option Q;
  WinRate : option Q
}.

Definition white_wins (filtered : list Game) : list (string * nat) :=
  value_counts (white_id <$> white_won filtered).

Definition black_wins (filtered : list Game) : list (string * nat) :=
  value_counts (black_id <$> black_won filtered).

Definition total_wins (filtered : list Game) : list (string * Q) :=
  add_fill0 (white_wins filtered) (black_wins filtered).

Definition total_games (filtered : list Game) : list (string * Q) :=
  add_fill0 (value_counts (white_id <$> filtered))
            (value_counts (black_id <$> filtered)).

Definition winrate (filtered : list Game) : list (string * option Q) :=
  series_mul (series_div (total_wins filtered) (total_games filtered)) 100.

(** [pd.DataFrame({"Games": g, "WinRate": w})]: a row per label of the
    joined index, a cell being [NaN] where the series has no such label. *)
Definition frame_of (g : list (string * Q)) (w : list (string * option Q))
  : list PlayerRow :=
  (λ k, {| Player := k; Games := loc k g; WinRate := mjoin (loc k w) |})
    <$> index_join (g.*1) (w.*1).

(** [DataFrame.dropna()]: the rows without a [NaN] cell. *)
Definition frame_dropna (df : list PlayerRow) : list PlayerRow :=
  filter (λ r, is_Some (Games r) ∧ is_Some (WinRate r)) df.

(** [sort_values("Games", ascending=False)] on a frame without [NaN]. *)
Definition games_le (r1 r2 : PlayerRow) : bool :=
  match Games r1, Games r2 with
  | Some g1, Some g2 => Qle_bool g2 g1
  | _, _ => true
  end.

(** The script takes [head(10)]; [top_players] has the 10 as a parameter. *)
Definition top_players (n : nat) (filtered : list Game) : list PlayerRow :=
  head n (sort_by games_le
            (frame_dropna (frame_of (total_games filtered) (winrate filtered)))).

Definition player_stats (filtered : list Game) : list PlayerRow :=
  top_players 10 filtered.

(** ** Download and reload *)

(** The text the download button offers is [filtered.to_csv()]; a table
    is loaded again by [read_csv] followed by the two steps of
    [load_data].  The writer and the reader are modelled on records of
    fields: the quoting that turns a record into a line of text, and back,
    is not modelled. *)
Module Csv.
Section csv.
Context {Cell : Type}.

(** [render] is the text written for a cell.  [reread] is the conversion
    [read_csv] applies to the fields of one column, which settles the
    dtype of the column again from its fields; [None] is a column that the
    reader rejects or that is not modelled.  Both are given below, for
    the cells of [bool], [int64] and text columns. *)
Context (render : Cell → string) (reread : list string → option (list Cell)).







End csv.
End Csv.

(** *** Cells and dtype inference *)

(** The cells of a column of dtype [bool], [int64] or [object]. *)
Inductive Cell :=
  | NaN
  | Bool (b : bool)
  | Int (z : Z)
  | Text (s : string).
































(** ** Row predicates used to state the properties *)

(** The four membership tests of the first selection. *)
Definition attributes_accepted (c : Criteria) (r : Game) : bool :=
  bool_decide (rated r ∈ rated_options c)
  && bool_decide (victory_status r ∈ victory_options c)
  && bool_decide (time_increment r ∈ time_increments c)
  && bool_decide (opening_shortname r ∈ openings c).

(** The test of the second selection. *)
Definition player_accepted (c : Criteria) (r : Game) : bool :=
  bool_decide (white_id r ∈ players c) || bool_decide (black_id r ∈ players c).

(** The retention rule in the words of the specification: an attribute
    with an empty accepted set is not constrained, and the player
    constraint applies when the player set is not empty. *)
Definition spec_retains (c : Criteria) (r : Game) : Prop :=
  (rated_options c ≠ [] → rated r ∈ rated_options c) ∧
  (victory_options c ≠ [] → victory_status r ∈ victory_options c) ∧
  (time_increments c ≠ [] → time_increment r ∈ time_increments c) ∧
  (openings c ≠ [] → opening_shortname r ∈ openings c) ∧
  (players c ≠ [] → white_id r ∈ players c ∨ black_id r ∈ players c).

(** The specification's criteria without any constraint: every accepted
    set left empty. *)
Definition accept_all : Criteria :=
  {| rated_options := []; victory_options := []; time_increments := [];
     openings := []; players := [] |}.

(** A row has a value in each of the four columns of the first selection. *)
Definition no_null (r : Game) : Prop :=
  is_Some (rated r) ∧ is_Some (victory_status r) ∧
  is_Some (time_increment r) ∧ is_Some (opening_shortname r).

(** The sum of the [turns] column of a table without a missing cell. *)
Definition turns_total (view : list Game) : Z :=
  foldr Z.add 0%Z ((λ g, default 0%Z (turns g)) <$> view).

(** The number of rows whose [rated] cell is [True]. *)
Definition rated_true (view : list Game) : nat :=
  length (filter (λ g, rated g = Some true) view).

(** The number of rows won by White whose opening is [o]. *)
Definition white_wins_with (o : string) (view : list Game) : nat :=
  length (filter (λ g, winner g = Some "White"%string
                       ∧ opening_shortname g = Some o) view).

(** The games and the wins of a player in the words of the
    specification: the rows with the player on either side, and the rows
    won by the side the player was on. *)
Definition spec_games (id : string) (view : list Game) : nat :=
  length (filter (λ g, white_id g = Some id) view)
  + length (filter (λ g, black_id g = Some id) view).

Definition spec_wins (id : string) (view : list Game) : nat :=
  length (filter (λ g, winner g = Some "White"%string ∧ white_id g = Some id) view)
  + length (filter (λ g, winner g = Some "Black"%string ∧ black_id g = Some id) view).

(** ** Sample rows *)

Definition game_1 : Game :=
  {| game_id := "1"; rated := Some true; turns := Some 13%Z;
     victory_status := Some "mate"; winner := Some "White";
     time_increment := Some "15+2"; opening_shortname := Some "Italian";
     white_id := Some "alice"; black_id := Some "bob" |}.

Definition game_2 : Game :=
  {| game_id := "2"; rated := Some false; turns := Some 40%Z;
     victory_status := Some "resign"; winner := Some "White";
     time_increment := Some "10+0"; opening_shortname := Some "Italian";
     white_id := Some "carol"; black_id := Some "bob" |}.

Definition game_3 : Game :=
  {| game_id := "3"; rated := Some true; turns := Some 61%Z;
     victory_status := Some "outoftime"; winner := Some "Black";
     time_increment := Some "15+2"; opening_shortname := Some "Sicilian";
     white_id := Some "alice"; black_id := Some "carol" |}.

(** A row whose opening is missing. *)
Definition game_null : Game :=
  {| game_id := "4"; rated := Some true; turns := None;
     victory_status := Some "mate"; winner := Some "Black";
     time_increment := Some "10+0"; opening_shortname := None;
     white_id := Some "bob"; black_id := Some "alice" |}.

(** A source with two rows of the same [game_id], and the two columns
    the loader discards. *)
Definition csv_duplicate_ids : Loader.RawFrame string :=
  [("game_id", ["g1"; "g1"; "g2"]);
   ("rated", ["True"; "False"; "True"]);
   ("moves", ["e4 e5"; "d4 d5"; "c4"]);
   ("winner", ["White"; "Black"; "Draw"]);
   ("Unnamed: 15", [""; ""; ""])]%string.

(** Every attribute set accepts [game_1], except the empty [rated] set. *)
Definition rated_unselected : Criteria :=
  {| rated_options := [];
     victory_options := [Some "mate"];
     time_increments := [Some "15+2"];
     openings := [Some "Italian"];
     players := [] |}.

(** Selections that list the values of the three sample rows. *)
Definition sample_selection : Criteria :=
  {| rated_options := [Some false; Some true];
     victory_options := [Some "outoftime"; Some "mate"; Some "resign"];
     time_increments := [Some "10+0"; Some "15+2"];
     openings := [Some "Sicilian"; Some "Italian"];
     players := [] |}.

(** ** The rest of the script *)

(** The options of the player widget:
    [sorted(pd.concat([white_id, black_id]).dropna().unique())]. *)
Definition player_options (chess : list Game) : list string :=
  sorted (unique (dropna ((white_id <$> chess) ++ (black_id <$> chess)))).

(** The selections after the user picks players in the untouched sidebar. *)
Definition with_players (ps : list string) (chess : list Game) : Criteria :=
  {| rated_options := rated_options (default_criteria chess);
     victory_options := victory_options (default_criteria chess);
     time_increments := time_increments (default_criteria chess);
     openings := openings (default_criteria chess);
     players := Some <$> ps |}.

(** [DataFrame.value_counts()] on a frame of one column: the rows with a
    [NaN] are dropped, the groups are formed in sorted key order and then
    sorted by their size, largest first. *)
Definition frame_value_counts (col : list (option string)) : list (string * nat) :=
  let vals := dropna col in
  sort_by (λ a b : string * nat, b.2 <=? a.2)%nat
    ((λ k, (k, count k vals)) <$> sorted (unique vals)).

(** Plot 1: the most popular openings; the script takes [head(10)]. *)
Definition top_popular (n : nat) (filtered : list Game) : list (string * nat) :=
  head n (frame_value_counts (opening_shortname <$> filtered)).

Definition pop (filtered : list Game) : list (string * nat) :=
  top_popular 10 filtered.

(** Plot 5: the most common time increments; the script takes [head(10)]. *)
Definition top_increments (n : nat) (filtered : list Game) : list (string * nat) :=
  head n (frame_value_counts (time_increment <$> filtered)).

Definition setup (filtered : list Game) : list (string * nat) :=
  top_increments 10 filtered.

(** The test the two selections of the filter apply to a row. *)
Definition retained (c : Criteria) (r : Game) : bool :=
  attributes_accepted c r
  && (if decide (players c ≠ []) then player_accepted c r else true).

#[global] Instance no_null_dec (r : Game) : Decision (no_null r).
Proof. unfold no_null. apply _. Defined.

(** Selections narrower than others: each of the four accepted sets is
    contained in the other one, and either the other selection names no
    player, or this one names at least one player and only players the
    other one names.  A selection that names no player accepts every
    player, so it is not narrower than one that names some. *)
Definition narrower (c1 c2 : Criteria) : Prop :=
  rated_options c1 ⊆ rated_options c2
  ∧ victory_options c1 ⊆ victory_options c2
  ∧ time_increments c1 ⊆ time_increments c2
  ∧ openings c1 ⊆ openings c2
  ∧ (players c2 = [] ∨ (players c1 ≠ [] ∧ players c1 ⊆ players c2)).

(** The number of games of a row of the player chart, 0 for a [NaN]. *)
Definition games_of (r : PlayerRow) : Q := default 0%Q (Games r).

(** The player table of plot 8 before [head]: all players, ranked. *)
Definition ranked_players (filtered : list Game) : list PlayerRow :=
  sort_by games_le
    (frame_dropna (frame_of (total_games filtered) (winrate filtered))).

(** The total of a series of numbers. *)
Definition series_total (s : list (string * Q)) : Q :=
  foldr Qplus 0%Q s.*2.

(** Two sets of selections with the same accepted values, in any order
    and with any repetition. *)
Definition same_selection (c1 c2 : Criteria) : Prop :=
  (∀ v, v ∈ rated_options c1 ↔ v ∈ rated_options c2)
  ∧ (∀ v, v ∈ victory_options c1 ↔ v ∈ victory_options c2)
  ∧ (∀ v, v ∈ time_increments c1 ↔ v ∈ time_increments c2)
  ∧ (∀ v, v ∈ openings c1 ↔ v ∈ openings c2)
  ∧ (∀ v, v ∈ players c1 ↔ v ∈ players c2).

(** * Properties *)

Local Close Scope Q_scope.
Local Open Scope nat_scope.

(** ** Masks and selection *)

Lemma select_fmap {R : Type} (f : R → bool) (df : list R) :
  select df (f <$> df) = List.filter f df.
Proof.
  induction df as [|r df IH]; csimpl; [done|].
  by rewrite IH.
Qed.

Lemma mask_and_fmap {R : Type} (f g : R → bool) (df : list R) :
  (f <$> df) &&& (g <$> df) = (λ r, f r && g r) <$> df.
Proof. unfold mask_and. induction df as [|r df IH]; csimpl; [done|]. by rewrite IH. Qed.

Lemma mask_or_fmap {R : Type} (f g : R → bool) (df : list R) :
  (f <$> df) ||| (g <$> df) = (λ r, f r || g r) <$> df.
Proof. unfold mask_or. induction df as [|r df IH]; csimpl; [done|]. by rewrite IH. Qed.

Lemma isin_fmap {R A : Type} `{EqDecision A} (col : R → option A) df values :
  isin (col <$> df) values = (λ r, bool_decide (col r ∈ values)) <$> df.
Proof. unfold isin. by rewrite <- list_fmap_compose. Qed.

Lemma series_eq_fmap {R A : Type} `{EqDecision A} (col : R → option A) df x :
  series_eq (col <$> df) x = (λ r, bool_decide (col r = Some x)) <$> df.
Proof. unfold series_eq. by rewrite <- list_fmap_compose. Qed.

Lemma elem_of_List_filter {R : Type} (f : R → bool) (l : list R) (x : R) :
  x ∈ List.filter f l ↔ x ∈ l ∧ f x = true.
Proof. rewrite !list_elem_of_In. apply filter_In. Qed.

Lemma List_filter_sublist {R : Type} (f : R → bool) (l : list R) :
  List.filter f l `sublist_of` l.
Proof.
  induction l as [|x l IH]; simpl; [constructor|].
  destruct (f x); by constructor.
Qed.

Lemma List_filter_all {R : Type} (f : R → bool) (l : list R) :
  Forall (λ x, f x = true) l → List.filter f l = l.
Proof.
  induction 1 as [|x l Hx _ IH]; simpl; [done|].
  by rewrite Hx, IH.
Qed.

(** ** The filter as one row predicate *)

Lemma filtered_unfold (c : Criteria) (chess : list Game) :
  filtered c chess =
    if decide (players c ≠ []) then
      List.filter (player_accepted c) (List.filter (attributes_accepted c) chess)
    else List.filter (attributes_accepted c) chess.
Proof.
  unfold filtered; cbv zeta.
  rewrite !isin_fmap, !mask_and_fmap, !select_fmap.
  change (List.filter _ chess) with (List.filter (attributes_accepted c) chess).
  destruct (decide (players c ≠ [])); [|done].
  by rewrite mask_or_fmap, select_fmap.
Qed.

Lemma elem_of_filtered (c : Criteria) (chess : list Game) (r : Game) :
  r ∈ filtered c chess ↔
    r ∈ chess ∧ attributes_accepted c r = true
    ∧ (players c ≠ [] → player_accepted c r = true).
Proof.
  rewrite filtered_unfold.
  destruct (decide (players c ≠ [])) as [Hp|Hp];
    rewrite ?elem_of_List_filter; tauto.
Qed.

Lemma attributes_accepted_spec (c : Criteria) (r : Game) :
  attributes_accepted c r = true ↔
    rated r ∈ rated_options c ∧ victory_status r ∈ victory_options c
    ∧ time_increment r ∈ time_increments c ∧ opening_shortname r ∈ openings c.
Proof.
  unfold attributes_accepted.
  rewrite !andb_true_iff, !bool_decide_eq_true. tauto.
Qed.

Lemma player_accepted_spec (c : Criteria) (r : Game) :
  player_accepted c r = true ↔ white_id r ∈ players c ∨ black_id r ∈ players c.
Proof.
  unfold player_accepted.
  by rewrite orb_true_iff, !bool_decide_eq_true.
Qed.

(** ** The filter: retention, identity, order *)

(** C3 (as stated, refuted): with the [rated] selection empty and every
    other selection accepting [game_1], the specification's rule retains
    [game_1], and the filter returns no row. *)
Lemma C3_empty_set_rejects_all :
  ¬ (game_1 ∈ filtered rated_unselected [game_1]
     ↔ game_1 ∈ [game_1] ∧ spec_retains rated_unselected game_1).
Proof.
  intros [_ H].
  assert (Hin : game_1 ∈ filtered rated_unselected [game_1]).
  { apply H. split; [by left|].
    unfold spec_retains; simpl.
    repeat split; intros; try done; by left. }
  vm_compute in Hin. by apply elem_of_nil in Hin.
Qed.

(** C3 (amended): a row is retained if and only if its [rated],
    [victory_status], [time_increment] and [opening_shortname] each belong
    to the accepted set of that attribute, whether or not that set is
    empty, and, when the player set is not empty, its [white_id] or its
    [black_id] belongs to the player set; an empty player set places no
    constraint. *)
Theorem C3_filtered_retains_iff (c : Criteria) (chess : list Game) (r : Game) :
  r ∈ filtered c chess ↔
    r ∈ chess
    ∧ rated r ∈ rated_options c
    ∧ victory_status r ∈ victory_options c
    ∧ time_increment r ∈ time_increments c
    ∧ opening_shortname r ∈ openings c
    ∧ (players c ≠ [] → white_id r ∈ players c ∨ black_id r ∈ players c).
Proof.
  rewrite elem_of_filtered, attributes_accepted_spec, player_accepted_spec.
  tauto.
Qed.

(** ** Sorting, distinct cells, missing cells *)

Section sort_by_facts.
Context {R : Type} (le : R → R → bool).

Lemma insert_by_Permutation (x : R) (l : list R) :
  insert_by le x l ≡ₚ x :: l.
Proof.
  induction l as [|y l IH]; simpl; [done|].
  destruct (le x y); [done|].
  rewrite IH. apply Permutation_swap.
Qed.

Lemma sort_by_Permutation (l : list R) : sort_by le l ≡ₚ l.
Proof.
  induction l as [|x l IH]; simpl; [done|].
  by rewrite insert_by_Permutation, IH.
Qed.

Lemma elem_of_sort_by (x : R) (l : list R) : x ∈ sort_by le l ↔ x ∈ l.
Proof. by rewrite sort_by_Permutation. Qed.

(** The order [le] decides, as a relation. *)
Context (rel : relation R).
Hypothesis le_rel : ∀ x y, le x y = true → rel x y.
Hypothesis le_total : ∀ x y, le x y = false → rel y x.

Lemma HdRel_insert_by (a x : R) (l : list R) :
  rel a x → HdRel rel a l → HdRel rel a (insert_by le x l).
Proof.
  intros Hax Hl. destruct l as [|y l]; simpl; [by constructor|].
  destruct (le x y); constructor; [done|].
  by inversion Hl.
Qed.

Lemma Sorted_insert_by (x : R) (l : list R) :
  Sorted rel l → Sorted rel (insert_by le x l).
Proof.
  induction 1 as [|y l Hl IH Hy]; simpl; [by repeat constructor|].
  destruct (le x y) eqn:Hxy.
  - repeat constructor; auto.
  - constructor; [done|].
    apply HdRel_insert_by; auto.
Qed.

Lemma Sorted_sort_by (l : list R) : Sorted rel (sort_by le l).
Proof.
  induction l as [|x l IH]; simpl; [constructor|].
  by apply Sorted_insert_by.
Qed.
End sort_by_facts.

Section series_facts.
Context {A : Type} `{EqDecision A}.

Lemma elem_of_dropna (x : A) (s : list (option A)) :
  x ∈ dropna s ↔ Some x ∈ s.
Proof.
  unfold dropna. rewrite list_elem_of_omap. split.
  - intros (o & Ho & Heq). simpl in Heq. by subst.
  - intros Hx. by exists (Some x).
Qed.

Lemma elem_of_unique_from (seen s : list A) (x : A) :
  x ∈ unique_from seen s ↔ x ∈ s ∧ x ∉ seen.
Proof.
  revert seen. induction s as [|y s IH]; intros seen; simpl.
  - rewrite elem_of_nil. tauto.
  - destruct (decide (y ∈ seen)) as [Hy|Hy].
    + rewrite IH, elem_of_cons. split; [tauto|].
      intros [[->|Hx] Hn]; [done|tauto].
    + rewrite !elem_of_cons, IH, elem_of_cons.
      destruct (decide (x = y)) as [->|Hne]; tauto.
Qed.

Lemma elem_of_unique (s : list A) (x : A) : x ∈ unique s ↔ x ∈ s.
Proof.
  unfold unique. rewrite elem_of_unique_from, elem_of_nil. tauto.
Qed.

Lemma NoDup_unique_from (seen s : list A) : NoDup (unique_from seen s).
Proof.
  revert seen. induction s as [|y s IH]; intros seen; simpl.
  - constructor.
  - destruct (decide (y ∈ seen)); [done|].
    constructor; [|done].
    rewrite elem_of_unique_from, elem_of_cons. tauto.
Qed.

Lemma NoDup_unique (s : list A) : NoDup (unique s).
Proof. apply NoDup_unique_from. Qed.
End series_facts.

Lemma elem_of_options (col : list (option string)) (k : string) :
  k ∈ options col ↔ Some k ∈ col.
Proof.
  unfold options, sorted.
  by rewrite elem_of_sort_by, elem_of_unique, elem_of_dropna.
Qed.

Lemma elem_of_Some_options (col : list (option string)) (v : option string) :
  v ∈ Some <$> options col ↔ is_Some v ∧ v ∈ col.
Proof.
  rewrite list_elem_of_fmap. split.
  - intros (k & -> & Hk). split; [by eexists|]. by apply elem_of_options.
  - intros [[k ->] Hk]. exists k. split; [done|]. by apply elem_of_options.
Qed.

Lemma fmap_sublist {A B : Type} (f : A → B) (l1 l2 : list A) :
  l1 `sublist_of` l2 → f <$> l1 `sublist_of` f <$> l2.
Proof. induction 1; csimpl; by constructor. Qed.

Lemma filtered_sublist (c : Criteria) (chess : list Game) :
  filtered c chess `sublist_of` chess.
Proof.
  rewrite filtered_unfold.
  destruct (decide (players c ≠ [])); [|apply List_filter_sublist].
  etrans; apply List_filter_sublist.
Qed.

(** C4 (as stated, refuted): the specification writes "accept all" as
    the empty accepted set; with every set empty the filter drops the one
    row of the table.  With every option of the sidebar selected, as the
    widgets start, the filter still drops a row that misses an opening. *)
Lemma C4_accept_all_drops_rows :
  filtered accept_all [game_1] ≠ [game_1]
  ∧ filtered (default_criteria [game_1; game_null]) [game_1; game_null]
    ≠ [game_1; game_null].
Proof. split; by vm_compute. Qed.

(** C4 (amended): when each of the four accepted sets contains the value
    every row has for that attribute and the player set is empty, the
    filter returns the table unchanged: the same rows in the same order.
    The sidebar's initial selections do so on every table without a
    missing value in the four columns. *)
Theorem C4_filtered_identity (c : Criteria) (chess : list Game) :
  (players c = [] →
   Forall (λ r, rated r ∈ rated_options c
                ∧ victory_status r ∈ victory_options c
                ∧ time_increment r ∈ time_increments c
                ∧ opening_shortname r ∈ openings c) chess →
   filtered c chess = chess)
  ∧ (Forall no_null chess → filtered (default_criteria chess) chess = chess).
Proof.
  assert (Hgen : ∀ c' : Criteria,
    players c' = [] →
    Forall (λ r, rated r ∈ rated_options c'
                 ∧ victory_status r ∈ victory_options c'
                 ∧ time_increment r ∈ time_increments c'
                 ∧ opening_shortname r ∈ openings c') chess →
    filtered c' chess = chess).
  { intros c' Hp Hall.
    rewrite filtered_unfold, decide_False by (by rewrite Hp; intros []).
    apply List_filter_all.
    eapply Forall_impl; [exact Hall|].
    intros r Hr. by apply attributes_accepted_spec. }
  split; [apply Hgen|].
  intros Hnn. apply Hgen; [done|].
  apply Forall_forall. intros r Hr.
  rewrite Forall_forall in Hnn. destruct (Hnn r Hr) as (H1 & H2 & H3 & H4).
  simpl. rewrite !elem_of_Some_options. repeat split; try done.
  - destruct H1 as [[] ->]; [by left|by right; left].
  - apply list_elem_of_fmap. by exists r.
  - apply list_elem_of_fmap. by exists r.
  - apply list_elem_of_fmap. by exists r.
Qed.

(** The three sample rows under selections that list their values. *)
Lemma C4_filtered_identity_witness :
  filtered sample_selection [game_1; game_2; game_3]
  = [game_1; game_2; game_3].
Proof.
  apply (proj1 (C4_filtered_identity _ _)); [reflexivity|].
  repeat constructor; by vm_compute.
Defined.

(** C5: for every table and every criteria, the key column of the
    filtered table is a subsequence of the key column of the table: every
    [game_id] of the result is a [game_id] of the input, and the rows of
    the result are rows of the input in the same relative order. *)
Theorem C5_filtered_subset_in_order (c : Criteria) (chess : list Game) :
  filtered c chess `sublist_of` chess
  ∧ game_id <$> filtered c chess `sublist_of` game_id <$> chess
  ∧ game_id <$> filtered c chess ⊆ game_id <$> chess.
Proof.
  pose proof (filtered_sublist c chess) as H.
  split; [done|].
  split; [by apply fmap_sublist|].
  by apply sublist_subseteq, fmap_sublist.
Qed.

(** C10: when the accepted sets of [rated], [victory_status],
    [time_increment] and [opening_shortname] hold no missing value, every
    row of the filtered table has a value in each of the four columns.  The
    four tests are applied whatever the sets are: the sidebar's default
    selections, which list every value observed in the table, hold no
    missing value and so drop the rows that miss one of the four. *)
Theorem C10_filtered_no_null (c : Criteria) (chess : list Game) :
  (None ∉ rated_options c → None ∉ victory_options c →
   None ∉ time_increments c → None ∉ openings c →
   Forall no_null (filtered c chess))
  ∧ Forall no_null (filtered (default_criteria chess) chess).
Proof.
  assert (Hgen : ∀ c' : Criteria,
    None ∉ rated_options c' → None ∉ victory_options c' →
    None ∉ time_increments c' → None ∉ openings c' →
    Forall no_null (filtered c' chess)).
  { intros c' H1 H2 H3 H4. apply Forall_forall. intros r Hr.
    apply elem_of_filtered in Hr as (_ & Hr & _).
    apply attributes_accepted_spec in Hr as (R1 & R2 & R3 & R4).
    unfold no_null.
    destruct (rated r), (victory_status r), (time_increment r),
      (opening_shortname r); try done; repeat split; by eexists. }
  split; [apply Hgen|].
  apply Hgen; simpl.
  - rewrite !elem_of_cons, elem_of_nil. intros [|[|[]]]; done.
  - rewrite elem_of_Some_options. by intros [[? ?] _].
  - rewrite elem_of_Some_options. by intros [[? ?] _].
  - rewrite elem_of_Some_options. by intros [[? ?] _].
Qed.

(** Selections without a missing value, on a table with a row whose
    opening is missing. *)
Lemma C10_filtered_no_null_witness :
  Forall no_null
    (filtered {| rated_options := [Some true];
                 victory_options := [Some "mate"];
                 time_increments := [Some "10+0"; Some "15+2"];
                 openings := [Some "Italian"];
                 players := [] |}
              [game_1; game_null]).
Proof.
  apply (proj1 (C10_filtered_no_null _ _)); simpl;
    by apply (bool_decide_unpack _).
Defined.

(** ** The metrics *)

Lemma rated_sum_rated_true (view : list Game) : rated_sum view = rated_true view.
Proof.
  unfold rated_sum, rated_true, count, dropna.
  induction view as [|g view IH]; [done|].
  csimpl. rewrite (filter_cons (λ g, rated g = Some true)).
  destruct (rated g) as [[]|] eqn:Hr; csimpl;
    rewrite ?filter_cons; repeat case_decide; try done; simpl; congruence.
Qed.

Lemma inject_nat_nonzero (n : nat) :
  (0 < n)%nat → ¬ (inject_Z (Z.of_nat n) == 0)%Q.
Proof.
  intros Hn Heq. unfold Qeq in Heq. simpl in Heq. lia.
Qed.

Section rated_pct_binary64.
Import PrimFloat.

(** C7 (as stated, refuted): a table of 80 games, 23 of them rated.  The
    claim gives 100 * 23 / 80 = 28.75, a number [float64] holds exactly.
    The script divides first: 23 / 80 is rounded to the [float64] just
    below 0.2875, and its product with 100 is the [float64] just below
    28.75, which the metric shows as 28.7 where 28.75 shows as 28.8.  The
    same happens on the three sample rows, where 2 / 3 * 100 is not the
    [float64] that 100 * 2 / 3 gives. *)
Lemma C7_quotient_rounded_first :
  let view := replicate 23 game_1 ++ replicate 57 game_2 in
  rated_true view = 23 ∧ length view = 80
  ∧ (∃ q : Q, F64.to_Q (F64.rated_pct view) = Some q
       ∧ (q < 100 * inject_Z 23 / inject_Z 80)%Q)
  ∧ F64.rated_pct view ≠ (100 * F64.of_count 23 / F64.of_count 80)%float
  ∧ F64.rated_pct [game_1; game_2; game_3]
    ≠ (100 * F64.of_count 2 / F64.of_count 3)%float.
Proof.
  assert (Hne : ∀ x y : float, eqb x x = true → eqb x y = false → x ≠ y)
    by (intros x y Hx Hy ->; congruence).
  cbv zeta. split; [by vm_compute|]. split; [by vm_compute|].
  split; [|split].
  - eexists. split; [by vm_compute|]. by vm_compute.
  - apply Hne; by vm_compute.
  - apply Hne; by vm_compute.
Qed.

(** C7 (amended): on an empty table [rated_pct] is 0, the division being
    guarded; on any other table it is the [float64] product with 100 of the
    [float64] quotient of the number of rows with [rated == True] by the
    number of rows: the quotient is rounded before it is multiplied. *)
Theorem C7_rated_pct_binary64 (view : list Game) :
  (view = [] → F64.rated_pct view = 0%float)
  ∧ (view ≠ [] →
     F64.rated_pct view
     = (F64.of_count (rated_true view) / F64.of_count (length view) * 100)%float).
Proof.
  split.
  - by intros ->.
  - intros Hne. unfold F64.rated_pct, num_games.
    assert (0 < length view)%nat by (destruct view; simpl; [done|lia]).
    rewrite decide_True by done.
    by rewrite rated_sum_rated_true.
Qed.

(** Two of the three sample rows are rated. *)
Lemma C7_rated_pct_binary64_witness :
  F64.rated_pct [game_1; game_2; game_3]
  = (F64.of_count 2 / F64.of_count 3 * 100)%float.
Proof.
  apply (proj2 (C7_rated_pct_binary64 [game_1; game_2; game_3])). discriminate.
Defined.
End rated_pct_binary64.

Lemma dropna_all_present {R : Type} (col : R → option Z) (df : list R) :
  Forall (λ r, is_Some (col r)) df →
  dropna (col <$> df) = (λ r, default 0%Z (col r)) <$> df.
Proof.
  induction 1 as [|r df [z Hz] _ IH]; [done|].
  unfold dropna in *. csimpl. by rewrite Hz, IH.
Qed.

(** On the empty table [avg_turns] is no number at all, in particular it
    is not 0. *)
Lemma avg_turns_empty_not_zero :
  ¬ ∃ q : Q, avg_turns [] = Some q ∧ (q == 0)%Q.
Proof. intros (q & Hq & _). discriminate Hq. Qed.

(** C2 (the code at the failing input): on the empty table [avg_turns]
    is [NaN], the value [mean] gives a column without cells, where
    [rated_pct], guarded on the next line of the script, is 0.  On a table
    with at least one row and no missing [turns] cell, [avg_turns] is the
    arithmetic mean: the sum of the column divided by the number of
    rows. *)
Theorem C2_avg_turns (view : list Game) :
  avg_turns [] = None
  ∧ rated_pct [] = 0%Q
  ∧ (view ≠ [] → Forall (λ g, is_Some (turns g)) view →
     avg_turns view =
       Some (inject_Z (turns_total view) / inject_Z (Z.of_nat (length view)))%Q).
Proof.
  split; [done|]. split; [done|].
  intros Hne Hall. unfold avg_turns, mean, turns_total.
  rewrite (dropna_all_present turns) by done.
  destruct view as [|g view]; [done|].
  csimpl. by rewrite length_fmap.
Qed.

(** The mean of the turns of the three sample rows. *)
Lemma C2_avg_turns_witness :
  avg_turns [game_1; game_2; game_3] = Some (114 / 3)%Q.
Proof.
  apply (proj2 (proj2 (C2_avg_turns [game_1; game_2; game_3])));
    [discriminate|].
  repeat constructor; by eexists.
Defined.

(** ** Counting values *)

Lemma count_pos {A : Type} `{EqDecision A} (x : A) (l : list A) :
  x ∈ l ↔ 0 < count x l.
Proof.
  unfold count. induction l as [|y l IH]; simpl.
  - rewrite elem_of_nil. lia.
  - rewrite filter_cons, elem_of_cons.
    destruct (decide (y = x)) as [->|Hne]; simpl.
    + split; [lia|by left].
    + rewrite <- IH. split; [by intros [->|]|by right].
Qed.

Lemma elem_of_value_counts (s : list (option string)) (k : string) (n : nat) :
  (k, n) ∈ value_counts s ↔ Some k ∈ s ∧ n = count k (dropna s).
Proof.
  unfold value_counts.
  rewrite elem_of_sort_by, list_elem_of_fmap.
  setoid_rewrite elem_of_unique. setoid_rewrite elem_of_dropna.
  split.
  - intros (k' & [= -> ->] & Hk). done.
  - intros [Hk ->]. by exists k.
Qed.

Lemma value_counts_keys (s : list (option string)) :
  (value_counts s).*1 ≡ₚ unique (dropna s).
Proof.
  unfold value_counts. rewrite sort_by_Permutation.
  generalize (unique (dropna s)) as l.
  induction l as [|k l IH]; csimpl; [done|]. by rewrite IH.
Qed.

Lemma NoDup_value_counts (s : list (option string)) :
  NoDup (value_counts s).*1.
Proof. rewrite value_counts_keys. apply NoDup_unique. Qed.

Lemma value_counts_sorted (s : list (option string)) :
  StronglySorted (λ a b : string * nat, b.2 ≤ a.2) (value_counts s).
Proof.
  apply Sorted_StronglySorted.
  { intros a b c ? ?. lia. }
  unfold value_counts. apply Sorted_sort_by; intros a b; simpl.
  - by rewrite Nat.leb_le.
  - rewrite Nat.leb_gt. lia.
Qed.

Lemma head_above_rest {R : Type} (rel : relation R) (n : nat) (l : list R) :
  StronglySorted rel l →
  ∀ x y, x ∈ head n l → y ∈ drop n l → rel x y.
Proof.
  intros Hs x y Hx Hy. unfold head in Hx.
  rewrite <- (take_drop n l) in Hs.
  by eapply StronglySorted_app_1_elem_of.
Qed.

(** ** The opening chart *)

Lemma white_won_filter (view : list Game) :
  white_won view =
    List.filter (λ g, bool_decide (winner g = Some "White"%string)) view.
Proof. unfold white_won. by rewrite series_eq_fmap, select_fmap. Qed.

Lemma count_won (col : Game → option string) (side o : string)
    (view : list Game) :
  count o (dropna (col <$>
    List.filter (λ g, bool_decide (winner g = Some side)) view))
  = length (filter (λ g, winner g = Some side ∧ col g = Some o) view).
Proof.
  unfold count, dropna.
  induction view as [|g view IH]; [done|].
  rewrite (filter_cons (λ g, _ ∧ _)). simpl.
  destruct (bool_decide_reflect (winner g = Some side)) as [Hw|Hw].
  - csimpl. destruct (col g) as [o'|] eqn:Ho; csimpl.
    + rewrite filter_cons.
      repeat case_decide; simpl; first [by rewrite IH | intuition congruence].
    + case_decide; [intuition congruence|done].
  - case_decide; [intuition congruence|done].
Qed.

Lemma count_white_won (o : string) (view : list Game) :
  count o (dropna (opening_shortname <$> white_won view))
  = white_wins_with o view.
Proof. rewrite white_won_filter. apply count_won. Qed.

(** C6: [top_openings n view] keeps the rows won by White, counts them
    per opening, and returns the first [n] entries of the ranking by that
    count, largest first: the ranking has one entry per opening with at
    least one white win, the entry holds the number of white wins with
    that opening, and no entry left out has a larger count than an entry
    returned.  On three rows, two won by White with the Italian opening
    and one won by Black with the Sicilian, the chart of the script (its
    [n] is 10) is [("Italian", 2)]. *)
Theorem C6_top_openings (n : nat) (view : list Game) :
  let ranking := value_counts (opening_shortname <$> white_won view) in
  top_openings n view = take n ranking
  ∧ (∀ o k, (o, k) ∈ ranking ↔ 0 < k ∧ k = white_wins_with o view)
  ∧ NoDup ranking.*1
  ∧ StronglySorted (λ a b : string * nat, b.2 ≤ a.2) ranking
  ∧ (∀ x y, x ∈ top_openings n view → y ∈ drop n ranking → y.2 ≤ x.2)
  ∧ (∀ r1 r2 r3 : Game,
       winner r1 = Some "White"%string →
       opening_shortname r1 = Some "Italian"%string →
       winner r2 = Some "White"%string →
       opening_shortname r2 = Some "Italian"%string →
       winner r3 = Some "Black"%string →
       opening_shortname r3 = Some "Sicilian"%string →
       openings_by_white_wins [r1; r2; r3] = [("Italian"%string, 2)]).
Proof.
  intros ranking. split; [done|]. split; [|split; [|split; [|split]]].
  - intros o k. unfold ranking.
    rewrite elem_of_value_counts, <- elem_of_dropna, count_pos, count_white_won.
    split; [by intros [? ->]|by intros [? ->]].
  - apply NoDup_value_counts.
  - apply value_counts_sorted.
  - intros x y Hx Hy.
    by apply (head_above_rest _ n ranking (value_counts_sorted _) x y).
  - intros r1 r2 r3 Hw1 Ho1 Hw2 Ho2 Hw3 Ho3.
    unfold openings_by_white_wins, top_openings.
    rewrite white_won_filter. simpl.
    rewrite Hw1, Hw2, Hw3. simpl.
    rewrite Ho1, Ho2. by vm_compute.
Qed.

(** The three sample rows are the three rows of the example. *)
Lemma C6_top_openings_witness :
  openings_by_white_wins [game_1; game_2; game_3] = [("Italian"%string, 2)].
Proof.
  by apply (proj2 (proj2 (proj2 (proj2 (proj2 (C6_top_openings 10 []))))) 
              game_1 game_2 game_3).
Defined.

(** ** The loader *)

Lemma loc_filter {V : Type} (P : string * V → Prop) `{∀ x, Decision (P x)}
    (name : string) (s : list (string * V)) :
  (∀ v, P (name, v)) → loc name (filter P s) = loc name s.
Proof.
  intros HP. induction s as [|[k v] s IH]; [done|].
  rewrite filter_cons. simpl.
  destruct (decide (name = k)) as [->|Hne].
  - rewrite decide_True by done. simpl. by rewrite decide_True.
  - case_decide; simpl; [by rewrite decide_False|done].
Qed.

(** C9: a source with a [game_id] column loads without an error, however
    many rows share a [game_id]: the index of the loaded table is the whole
    [game_id] column, label for label, and the other columns are kept
    whole, so two rows with the same [game_id] are both in the table, at
    the positions they had in the source. *)
Theorem C9_load_keeps_duplicates {Cell : Type} (csv : Loader.RawFrame Cell)
    (ids : list Cell) :
  loc "game_id" csv = Some ids →
  ∃ df : Loader.Frame Cell,
    Loader.load_data csv = Some df
    ∧ Loader.index df = ids
    ∧ Loader.columns df =
        filter (λ col, col.1 ≠ "game_id"%string)
          (filter (λ col, col.1 ∉ ["Unnamed: 15"; "moves"]%string) csv)
    ∧ (∀ (i j : nat) (k : Cell),
         i ≠ j → ids !! i = Some k → ids !! j = Some k →
         Loader.index df !! i = Some k ∧ Loader.index df !! j = Some k).
Proof.
  intros Hids. eexists. split.
  - unfold Loader.load_data, Loader.set_index, Loader.drop.
    rewrite loc_filter, Hids; [reflexivity|].
    intros v. by apply (bool_decide_unpack _).
  - simpl. by repeat split.
Qed.

(** A source in which two rows share the label [g1]. *)
Lemma C9_load_keeps_duplicates_witness :
  ∃ df : Loader.Frame string,
    Loader.load_data csv_duplicate_ids = Some df
    ∧ Loader.index df = ["g1"; "g1"; "g2"]%string
    ∧ Loader.columns df =
        [("rated", ["True"; "False"; "True"]);
         ("winner", ["White"; "Black"; "Draw"])]%string
    ∧ (∀ (i j : nat) (k : string),
         i ≠ j → ["g1"; "g1"; "g2"]%string !! i = Some k →
         ["g1"; "g1"; "g2"]%string !! j = Some k →
         Loader.index df !! i = Some k ∧ Loader.index df !! j = Some k).
Proof.
  exact (C9_load_keeps_duplicates csv_duplicate_ids
           ["g1"; "g1"; "g2"]%string eq_refl).
Defined.

(** ** The player chart *)

Lemma elem_of_index_join (i1 i2 : list string) (k : string) :
  k ∈ index_join i1 i2 ↔ k ∈ i1 ∨ k ∈ i2.
Proof.
  unfold index_join. destruct (decide (i1 = i2)) as [->|_]; [tauto|].
  unfold sorted. by rewrite elem_of_sort_by, elem_of_unique, elem_of_app.
Qed.

Lemma loc_fmap_index {V : Type} (f : string → V) (idx : list string) (k : string) :
  loc k ((λ k', (k', f k')) <$> idx) = if decide (k ∈ idx) then Some (f k) else None.
Proof.
  induction idx as [|k' idx IH]; csimpl.
  - done.
  - destruct (decide (k = k')) as [->|Hne].
    + destruct (decide (k' ∈ k' :: idx)) as [H|H]; [done|].
      exfalso. apply H. by left.
    + rewrite IH.
      destruct (decide (k ∈ idx)) as [Hin|Hin];
        destruct (decide (k ∈ k' :: idx)) as [H|H]; try done.
      * exfalso. apply H. by right.
      * by apply elem_of_cons in H as [?|?].
Qed.

Lemma loc_series_mul (s : list (string * option Q)) (x : Q) (k : string) :
  loc k (series_mul s x)
  = (λ v : option Q, (λ q : Q, (q * x)%Q) <$> v) <$> loc k s.
Proof.
  unfold series_mul. induction s as [|[k' v] s IH]; csimpl; [done|].
  destruct (decide (k = k')); [done|apply IH].
Qed.

Lemma elem_of_value_counts_keys (s : list (option string)) (k : string) :
  k ∈ (value_counts s).*1 ↔ Some k ∈ s.
Proof. by rewrite value_counts_keys, elem_of_unique, elem_of_dropna. Qed.

Lemma elem_of_top_players (n : nat) (view : list Game) (r : PlayerRow) :
  r ∈ top_players n view →
  r ∈ frame_of (total_games view) (winrate view) ∧ is_Some (WinRate r).
Proof.
  unfold top_players, head. intros Hr.
  assert (Hr' : r ∈ sort_by games_le
            (frame_dropna (frame_of (total_games view) (winrate view))))
    by (eapply elem_of_sublist; [exact Hr|apply sublist_take]).
  apply elem_of_sort_by in Hr'.
  unfold frame_dropna in Hr'. apply list_elem_of_filter in Hr'. tauto.
Qed.

(** A player of the chart has won a game: a player who lost or drew every
    game has no entry in [total_wins], the division leaves [NaN] for that
    player, and [dropna] removes the row. *)
Lemma top_players_have_won (n : nat) (view : list Game) (r : PlayerRow) :
  r ∈ top_players n view →
  Some (Player r) ∈ white_id <$> white_won view
  ∨ Some (Player r) ∈ black_id <$> black_won view.
Proof.
  intros [Hr Hrate]%elem_of_top_players.
  unfold frame_of in Hr. apply list_elem_of_fmap in Hr as (k & -> & _).
  simpl in *. unfold winrate in Hrate.
  rewrite loc_series_mul in Hrate. unfold series_div in Hrate.
  rewrite loc_fmap_index in Hrate.
  destruct (decide (k ∈ _)) as [_|_]; [|by destruct Hrate].
  simpl in Hrate.
  destruct (loc k (total_wins view)) as [w|] eqn:Hw; [|by destruct Hrate].
  unfold total_wins, add_fill0 in Hw. rewrite loc_fmap_index in Hw.
  destruct (decide (k ∈ _)) as [Hk|_]; [|done].
  apply elem_of_index_join in Hk.
  unfold white_wins, black_wins in Hk.
  by rewrite !elem_of_value_counts_keys in Hk.
Qed.

Lemma black_won_filter (view : list Game) :
  black_won view =
    List.filter (λ g, bool_decide (winner g = Some "Black"%string)) view.
Proof. unfold black_won. by rewrite series_eq_fmap, select_fmap. Qed.

Lemma count_column (col : Game → option string) (k : string) (view : list Game) :
  count k (dropna (col <$> view)) = length (filter (λ g, col g = Some k) view).
Proof.
  unfold count, dropna. induction view as [|g view IH]; [done|].
  rewrite (filter_cons (λ g, col g = _)). csimpl.
  destruct (col g) as [k'|] eqn:Hk; csimpl.
  - rewrite filter_cons.
    repeat case_decide; simpl; first [by rewrite IH | congruence].
  - done.
Qed.

Lemma loc_elem_of {V : Type} (k : string) (v : V) (s : list (string * V)) :
  NoDup s.*1 → (k, v) ∈ s → loc k s = Some v.
Proof.
  induction s as [|[k' v'] s IH]; csimpl; intros Hnd Hin.
  - by apply elem_of_nil in Hin.
  - apply NoDup_cons in Hnd as [Hk' Hnd].
    apply elem_of_cons in Hin as [[= -> ->]|Hin].
    + by rewrite decide_True.
    + rewrite decide_False; [by apply IH|].
      intros ->. apply Hk'. apply list_elem_of_fmap. by exists (k', v).
Qed.

Lemma loc_not_elem_of {V : Type} (k : string) (s : list (string * V)) :
  k ∉ s.*1 → loc k s = None.
Proof.
  induction s as [|[k' v'] s IH]; csimpl; intros Hk; [done|].
  rewrite not_elem_of_cons in Hk. destruct Hk as [Hne Hk].
  rewrite decide_False by done. by apply IH.
Qed.

(** The count held for a label, 0 for a label that is absent. *)
Lemma loc_value_counts (s : list (option string)) (k : string) :
  default 0 (loc k (value_counts s)) = count k (dropna s).
Proof.
  destruct (decide (Some k ∈ s)) as [Hk|Hk].
  - rewrite (loc_elem_of k (count k (dropna s))); [done|..].
    + apply NoDup_value_counts.
    + by apply elem_of_value_counts.
  - rewrite loc_not_elem_of by (by rewrite elem_of_value_counts_keys).
    simpl. rewrite <- elem_of_dropna, count_pos in Hk. lia.
Qed.

Lemma loc_add_fill0 (s1 s2 : list (option string)) (k : string) (q : Q) :
  loc k (add_fill0 (value_counts s1) (value_counts s2)) = Some q →
  q = (inject_Z (Z.of_nat (count k (dropna s1)))
       + inject_Z (Z.of_nat (count k (dropna s2))))%Q.
Proof.
  unfold add_fill0. rewrite loc_fmap_index.
  destruct (decide (k ∈ _)) as [_|_]; [|done].
  rewrite !loc_value_counts. congruence.
Qed.

Lemma inject_nat_plus (a b : nat) :
  (inject_Z (Z.of_nat a) + inject_Z (Z.of_nat b) == inject_Z (Z.of_nat (a + b)))%Q.
Proof. by rewrite Nat2Z.inj_add, inject_Z_plus. Qed.

Lemma length_filter_and {R : Type} (P Q : R → Prop)
    `{∀ x, Decision (P x)} `{∀ x, Decision (Q x)} (l : list R) :
  length (filter (λ x, P x ∧ Q x) l) ≤ length (filter Q l).
Proof.
  induction l as [|x l IH]; [done|].
  rewrite !filter_cons.
  repeat case_decide; simpl; first [lia | tauto].
Qed.

(** The rows of the chart hold what the specification defines for their
    player: the games as white plus the games as black, and 100 times the
    wins over the games; and the player has won at least once. *)
Lemma top_players_row (n : nat) (view : list Game) (r : PlayerRow) :
  r ∈ top_players n view →
  ∃ g w : Q,
    Games r = Some g ∧ WinRate r = Some w
    ∧ (g == inject_Z (Z.of_nat (spec_games (Player r) view)))%Q
    ∧ (w == 100 * inject_Z (Z.of_nat (spec_wins (Player r) view))
              / inject_Z (Z.of_nat (spec_games (Player r) view)))%Q
    ∧ 0 < spec_wins (Player r) view.
Proof.
  intros Hr. pose proof (top_players_have_won _ _ _ Hr) as Hwon.
  apply elem_of_top_players in Hr as [Hr Hrate].
  unfold frame_of in Hr. apply list_elem_of_fmap in Hr as (k & -> & _).
  simpl in *.
  assert (Hwr : loc k (winrate view) =
    (λ v : option Q, (λ q : Q, (q * 100)%Q) <$> v) <$>
      (if decide (k ∈ index_join (total_wins view).*1 (total_games view).*1)
       then Some match loc k (total_wins view), loc k (total_games view) with
                 | Some a, Some b => Some (a / b)%Q
                 | _, _ => None
                 end
       else None)).
  { unfold winrate. rewrite loc_series_mul. unfold series_div.
    by rewrite loc_fmap_index. }
  rewrite Hwr in Hrate |- *. clear Hwr.
  destruct (decide (k ∈ _)) as [_|_]; [|by destruct Hrate].
  destruct (loc k (total_wins view)) as [tw|] eqn:Hw; [|by destruct Hrate].
  destruct (loc k (total_games view)) as [tg|] eqn:Hg; [|by destruct Hrate].
  clear Hrate.
  unfold total_wins, white_wins, black_wins in Hw.
  apply loc_add_fill0 in Hw.
  unfold total_games in Hg. apply loc_add_fill0 in Hg.
  rewrite white_won_filter, black_won_filter, !count_won in Hw.
  rewrite !count_column in Hg.
  exists tg, ((tw / tg) * 100)%Q.
  split; [done|]. split; [done|].
  assert (Hgames : (tg == inject_Z (Z.of_nat (spec_games k view)))%Q)
    by (rewrite Hg; apply inject_nat_plus).
  assert (Hwins : (tw == inject_Z (Z.of_nat (spec_wins k view)))%Q)
    by (rewrite Hw; apply inject_nat_plus).
  assert (Hpos : 0 < spec_wins k view).
  { rewrite white_won_filter, black_won_filter in Hwon.
    rewrite <- !elem_of_dropna, !count_pos, !count_won in Hwon.
    unfold spec_wins. lia. }
  split; [done|]. split; [|done].
  rewrite Hgames, Hwins. field.
  apply inject_nat_nonzero.
  assert (spec_wins k view ≤ spec_games k view); [|lia].
  unfold spec_wins, spec_games.
  apply Nat.add_le_mono; apply length_filter_and.
Qed.

(** C1 (the code at the failing input): [game_1] is won by alice, with
    White, against bob.  bob has played one game and won none, so his win
    rate is 100 * 0 / 1 = 0 and he has games to be ranked by; in the
    script his win rate is [NaN], and the chart holds alice alone although
    it has room for ten players. *)
Theorem C1_player_stats_drops_winless :
  spec_games "bob" [game_1] = 1
  ∧ spec_wins "bob" [game_1] = 0
  ∧ loc "bob"%string (total_games [game_1]) = Some 1%Q
  ∧ loc "bob"%string (winrate [game_1]) = Some None
  ∧ player_stats [game_1] =
      [{| Player := "alice"; Games := Some 1%Q; WinRate := Some 100%Q |}].
Proof. by vm_compute. Qed.

(** ** The download, loaded again *)

Section csv_facts.
Context {Cell : Type}.
Context (render : Cell → string) (reread : list string → option (list Cell)).




End csv_facts.

Lemma filter_all {A : Type} (P : A → Prop) `{∀ x, Decision (P x)} (l : list A) :
  Forall P l → filter P l = l.
Proof.
  induction 1 as [|x l Hx _ IH]; [done|].
  by rewrite filter_cons, decide_True, IH.
Qed.


(** ** Columns that are read again as they were written *)





























(** * Further properties of the script *)

(** ** Composing filters *)

Lemma filtered_retained (c : Criteria) (chess : list Game) :
  filtered c chess = List.filter (retained c) chess.
Proof.
  rewrite filtered_unfold. unfold retained.
  destruct (decide (players c ≠ [])) as [Hp|Hp].
  - induction chess as [|r chess IH]; [done|]. simpl.
    destruct (attributes_accepted c r); simpl; [|done].
    by rewrite IH.
  - induction chess as [|r chess IH]; [done|]. simpl.
    rewrite andb_true_r. by rewrite IH.
Qed.

Lemma List_filter_twice {R : Type} (f g : R → bool) (l : list R) :
  List.filter f (List.filter g l) = List.filter (λ x, g x && f x) l.
Proof.
  induction l as [|x l IH]; [done|]. simpl.
  destruct (g x); simpl; [|done]. by rewrite IH.
Qed.

Lemma List_filter_ext_in {R : Type} (f g : R → bool) (l : list R) :
  (∀ x, x ∈ l → f x = g x) → List.filter f l = List.filter g l.
Proof.
  intros H. apply filter_ext_in. intros x Hx. apply H.
  by apply list_elem_of_In.
Qed.

(** X1: filtering a filtered table with the same selections changes
    nothing. *)
Theorem X1_filtered_idempotent (c : Criteria) (chess : list Game) :
  filtered c (filtered c chess) = filtered c chess.
Proof.
  rewrite !filtered_retained, List_filter_twice.
  apply List_filter_ext_in. intros r _. by destruct (retained c r).
Qed.

(** X2: two filters commute: the order in which two sets of selections
    are applied does not change the rows kept nor their order. *)
Theorem X2_filtered_commute (c1 c2 : Criteria) (chess : list Game) :
  filtered c1 (filtered c2 chess) = filtered c2 (filtered c1 chess).
Proof.
  rewrite !filtered_retained, !List_filter_twice.
  apply List_filter_ext_in. intros r _. apply andb_comm.
Qed.

Lemma narrower_retained (c1 c2 : Criteria) (r : Game) :
  narrower c1 c2 → retained c1 r = true → retained c2 r = true.
Proof.
  intros (H1 & H2 & H3 & H4 & Hp). unfold retained.
  rewrite !andb_true_iff, !attributes_accepted_spec.
  intros [(R1 & R2 & R3 & R4) Hr]. split; [by auto|].
  destruct (decide (players c2 ≠ [])) as [Hp2|]; [|done].
  destruct Hp as [?|[Hp1 Hsub]]; [done|].
  rewrite decide_True in Hr by done.
  apply player_accepted_spec in Hr. apply player_accepted_spec.
  destruct Hr; auto.
Qed.

(** X3: narrowing the selections can be done on the filtered table: when
    each of the four accepted sets of [c1] is contained in the one of [c2],
    and either [c2] names no player or [c1] names at least one player and
    only players that [c2] names, filtering the result of [c2] with [c1]
    gives what [c1] gives on the whole table, and that is a subsequence of
    the result of [c2]. *)
Theorem X3_filtered_narrower (c1 c2 : Criteria) (chess : list Game) :
  narrower c1 c2 →
  filtered c1 (filtered c2 chess) = filtered c1 chess
  ∧ filtered c1 chess `sublist_of` filtered c2 chess.
Proof.
  intros Hn.
  assert (Heq : filtered c1 (filtered c2 chess) = filtered c1 chess).
  { rewrite !filtered_retained, List_filter_twice.
    apply List_filter_ext_in. intros r _.
    destruct (retained c1 r) eqn:Hr; [|by rewrite andb_false_r].
    by rewrite (narrower_retained c1 c2 r Hn Hr). }
  split; [done|]. rewrite <- Heq. apply filtered_sublist.
Qed.

(** Only the Italian games of [alice], out of the sample selection. *)
Lemma X3_filtered_narrower_witness :
  filtered {| rated_options := [Some true];
              victory_options := [Some "mate"; Some "resign"];
              time_increments := [Some "15+2"];
              openings := [Some "Italian"];
              players := [Some "alice"] |}
    (filtered sample_selection [game_1; game_2; game_3])
  = [game_1].
Proof.
  refine (eq_trans (proj1 (X3_filtered_narrower _ sample_selection
            [game_1; game_2; game_3] _)) _); [|by vm_compute].
  repeat split; simpl; try (by left);
    apply (bool_decide_unpack _); by vm_compute.
Defined.

(** X4: the filter works row by row: the result on two tables put one
    after the other is the result on the first followed by the result on
    the second. *)
Theorem X4_filtered_app (c : Criteria) (chess1 chess2 : list Game) :
  filtered c (chess1 ++ chess2) = filtered c chess1 ++ filtered c chess2.
Proof. rewrite !filtered_retained. apply List.filter_app. Qed.

(** ** The sidebar *)

Lemma List_filter_decide {R : Type} (f : R → bool) (P : R → Prop)
    `{∀ x, Decision (P x)} (l : list R) :
  (∀ x, x ∈ l → f x = true ↔ P x) → List.filter f l = filter P l.
Proof.
  induction l as [|x l IH]; intros Hfp; [done|].
  simpl. rewrite filter_cons.
  rewrite IH by (intros y Hy; apply Hfp; by right).
  destruct (Hfp x (list_elem_of_here _ _)) as [Hx1 Hx2].
  destruct (f x); case_decide as HP; try done.
  - destruct HP. by apply Hx1.
  - by specialize (Hx2 HP).
Qed.

Lemma default_accepts (chess : list Game) (r : Game) :
  r ∈ chess →
  attributes_accepted (default_criteria chess) r = true ↔ no_null r.
Proof.
  intros Hr. rewrite attributes_accepted_spec. simpl.
  rewrite !elem_of_Some_options. unfold no_null. split.
  - intros (H1 & [? _] & [? _] & [? _]). repeat split; try done.
    destruct (rated r); [by eexists|].
    by repeat (apply elem_of_cons in H1 as [?|H1]; [done|]);
      apply elem_of_nil in H1.
  - intros (H1 & H2 & H3 & H4). repeat split; try done.
    + destruct H1 as [[] ->]; [by left|by right; left].
    + apply list_elem_of_fmap. by exists r.
    + apply list_elem_of_fmap. by exists r.
    + apply list_elem_of_fmap. by exists r.
Qed.

(** X5: with the sidebar untouched the filter keeps exactly the rows that
    have a value in [rated], [victory_status], [time_increment] and
    [opening_shortname], in their order; every other row is dropped. *)
Theorem X5_default_keeps_complete_rows (chess : list Game) :
  filtered (default_criteria chess) chess = filter no_null chess.
Proof.
  rewrite filtered_retained.
  apply List_filter_decide. intros r Hr. unfold retained.
  simpl. rewrite andb_true_r. by apply default_accepts.
Qed.

Lemma leb_false_flip (x y : string) :
  String.leb x y = false → String.leb y x = true.
Proof. intros Hxy. destruct (String.leb_total x y); congruence. Qed.

Lemma sorted_Sorted (l : list string) :
  Sorted (λ a b, String.leb a b = true) (sorted l).
Proof.
  apply Sorted_sort_by; [done|]. apply leb_false_flip.
Qed.

Lemma NoDup_sorted (l : list string) : NoDup l → NoDup (sorted l).
Proof. unfold sorted. by rewrite sort_by_Permutation. Qed.

(** X6: the option list of a widget is in ascending order, holds no value
    twice, and holds exactly the values that occur in the column; a
    missing cell gives no option. *)
Theorem X6_options_sorted_distinct (col : list (option string)) :
  Sorted (λ a b, String.leb a b = true) (options col)
  ∧ NoDup (options col)
  ∧ (∀ k, k ∈ options col ↔ Some k ∈ col).
Proof.
  split; [apply sorted_Sorted|]. split.
  - apply NoDup_sorted, NoDup_unique.
  - intros k. apply elem_of_options.
Qed.

Lemma elem_of_player_options (chess : list Game) (p : string) :
  p ∈ player_options chess ↔
    ∃ g, g ∈ chess ∧ (white_id g = Some p ∨ black_id g = Some p).
Proof.
  unfold player_options, sorted.
  rewrite elem_of_sort_by, elem_of_unique, elem_of_dropna, elem_of_app,
    !list_elem_of_fmap.
  split.
  - intros [(g & Hg & ?)|(g & Hg & ?)]; exists g; auto.
  - intros (g & Hg & [Hw|Hb]); [left|right]; by exists g.
Qed.

(** X7: the player widget offers, in ascending order and each once, the
    players that occur in the table, as White or as Black. *)
Theorem X7_player_options (chess : list Game) :
  Sorted (λ a b, String.leb a b = true) (player_options chess)
  ∧ NoDup (player_options chess)
  ∧ (∀ p, p ∈ player_options chess ↔
          ∃ g, g ∈ chess ∧ (white_id g = Some p ∨ black_id g = Some p)).
Proof.
  split; [apply sorted_Sorted|]. split.
  - apply NoDup_sorted, NoDup_unique.
  - apply elem_of_player_options.
Qed.

(** X8: on a table without missing values in the four filtered columns,
    picking one of the offered players in the untouched sidebar always
    shows at least one game, and shows only games of that player. *)
Theorem X8_offered_player_has_games (chess : list Game) (p : string) :
  Forall no_null chess →
  p ∈ player_options chess →
  filtered (with_players [p] chess) chess ≠ []
  ∧ Forall (λ r, white_id r = Some p ∨ black_id r = Some p)
           (filtered (with_players [p] chess) chess).
Proof.
  intros Hnn Hp.
  assert (Hin : ∀ r, r ∈ filtered (with_players [p] chess) chess ↔
            r ∈ chess ∧ (white_id r = Some p ∨ black_id r = Some p)).
  { intros r. rewrite elem_of_filtered, player_accepted_spec. simpl.
    rewrite !list_elem_of_singleton. split.
    - intros (Hr & _ & Hpl). split; [done|]. by apply Hpl.
    - intros [Hr Hpl]. split; [done|]. split; [|done].
      rewrite Forall_forall in Hnn.
      apply (default_accepts chess r Hr). by apply Hnn. }
  split.
  - apply elem_of_player_options in Hp as (g & Hg & Hgp).
    intros Hnil. assert (g ∈ filtered (with_players [p] chess) chess)
      as Hg' by (by apply Hin).
    rewrite Hnil in Hg'. by apply elem_of_nil in Hg'.
  - apply Forall_forall. intros r Hr. by apply Hin in Hr as [_ ?].
Qed.

(** [bob] is offered on the three sample rows and played two of them. *)
Lemma X8_offered_player_has_games_witness :
  filtered (with_players ["bob"%string] [game_1; game_2; game_3])
           [game_1; game_2; game_3] ≠ []
  ∧ Forall (λ r, white_id r = Some "bob"%string ∨ black_id r = Some "bob"%string)
      (filtered (with_players ["bob"%string] [game_1; game_2; game_3])
                [game_1; game_2; game_3]).
Proof.
  apply X8_offered_player_has_games.
  - repeat constructor; by eexists.
  - by apply (bool_decide_unpack _).
Defined.

(** ** Bounds on the metrics *)

Lemma rated_pct_formula (view : list Game) :
  (view = [] → rated_pct view = 0%Q)
  ∧ (view ≠ [] →
     (rated_pct view ==
        100 * inject_Z (Z.of_nat (rated_true view))
        / inject_Z (Z.of_nat (length view)))%Q).
Proof.
  split.
  - by intros ->.
  - intros Hne. unfold rated_pct, num_games.
    assert (0 < length view)%nat by (destruct view; simpl; [done|lia]).
    rewrite decide_True by done.
    rewrite rated_sum_rated_true.
    field. by apply inject_nat_nonzero.
Qed.

Lemma ratio_bounds (a lo hi : Z) (n : nat) :
  (0 < n)%nat → (lo * Z.of_nat n ≤ a ≤ hi * Z.of_nat n)%Z →
  (inject_Z lo <= inject_Z a / inject_Z (Z.of_nat n)
   ∧ inject_Z a / inject_Z (Z.of_nat n) <= inject_Z hi)%Q.
Proof.
  intros Hn [Hlo Hhi].
  assert (0 < inject_Z (Z.of_nat n))%Q as Hpos
    by (rewrite <- (Zlt_Qlt 0); lia).
  split.
  - apply Qle_shift_div_l; [done|].
    rewrite <- inject_Z_mult, <- Zle_Qle. lia.
  - apply Qle_shift_div_r; [done|].
    rewrite <- inject_Z_mult, <- Zle_Qle. lia.
Qed.

Lemma rated_true_le (view : list Game) : rated_true view ≤ length view.
Proof. unfold rated_true. apply length_filter. Qed.

(** X9: the rated percentage is a percentage: for every table it lies
    between 0 and 100. *)
Theorem X9_rated_pct_bounds (view : list Game) :
  (0 <= rated_pct view ∧ rated_pct view <= 100)%Q.
Proof.
  unfold rated_pct, num_games.
  destruct (decide (0 < length view)) as [Hn|Hn]; [|done].
  rewrite rated_sum_rated_true.
  destruct (ratio_bounds (Z.of_nat (rated_true view)) 0 1 (length view) Hn)
    as [Hlo Hhi].
  { pose proof (rated_true_le view). lia. }
  split.
  - apply Qmult_le_0_compat; [done|]. by compute.
  - apply (Qmult_le_compat_r _ 1 100) in Hhi; [done|]. by compute.
Qed.

Lemma rated_true_all (view : list Game) :
  Forall (λ g, rated g = Some true) view → rated_true view = length view.
Proof.
  unfold rated_true. induction 1 as [|g view Hg _ IH]; [done|].
  rewrite filter_cons, decide_True by done. simpl. by rewrite IH.
Qed.

Lemma rated_true_none (view : list Game) :
  Forall (λ g, rated g ≠ Some true) view → rated_true view = 0.
Proof.
  unfold rated_true. induction 1 as [|g view Hg _ IH]; [done|].
  by rewrite filter_cons, decide_False.
Qed.

Lemma filtered_rated (c : Criteria) (chess : list Game) :
  Forall (λ g, rated g ∈ rated_options c) (filtered c chess).
Proof.
  apply Forall_forall. intros g Hg.
  apply elem_of_filtered in Hg as (_ & Hg & _).
  by apply attributes_accepted_spec in Hg as (? & _).
Qed.

(** X10: the filter and the rated percentage agree: with only the rated
    option selected the percentage of a non-empty result is 100, and with
    only the unrated option selected it is 0. *)
Theorem X10_rated_selection_pct (c : Criteria) (chess : list Game) :
  (rated_options c = [Some true] → filtered c chess ≠ [] →
   (rated_pct (filtered c chess) == 100)%Q)
  ∧ (rated_options c = [Some false] →
     (rated_pct (filtered c chess) == 0)%Q).
Proof.
  pose proof (filtered_rated c chess) as Hr.
  split.
  - intros Hc Hne. rewrite Hc in Hr.
    destruct (rated_pct_formula (filtered c chess)) as [_ Hpct].
    rewrite (Hpct Hne), rated_true_all.
    + field. apply inject_nat_nonzero.
      destruct (filtered c chess); simpl; [done|lia].
    + eapply Forall_impl; [exact Hr|].
      intros g Hg. by apply list_elem_of_singleton in Hg.
  - intros Hc. rewrite Hc in Hr.
    destruct (decide (filtered c chess = [])) as [->|Hne]; [done|].
    destruct (rated_pct_formula (filtered c chess)) as [_ Hpct].
    rewrite (Hpct Hne), rated_true_none.
    + unfold Qdiv. by rewrite Qmult_0_r, Qmult_0_l.
    + eapply Forall_impl; [exact Hr|].
      intros g Hg. apply list_elem_of_singleton in Hg. congruence.
Qed.

(** Only rated games selected, on the three sample rows. *)
Lemma X10_rated_selection_pct_witness :
  (rated_pct (filtered {| rated_options := [Some true];
                          victory_options := [Some "mate"; Some "outoftime"];
                          time_increments := [Some "15+2"];
                          openings := [Some "Italian"; Some "Sicilian"];
                          players := [] |}
                       [game_1; game_2; game_3]) == 100)%Q.
Proof.
  apply (proj1 (X10_rated_selection_pct _ _)); [done|by vm_compute].
Defined.

Lemma dropna_nil_iff {A : Type} (s : list (option A)) :
  dropna s = [] ↔ Forall (λ v, v = None) s.
Proof.
  unfold dropna. induction s as [|[x|] s IH]; csimpl.
  - done.
  - split; [done|]. by intros [[=] _]%Forall_cons.
  - rewrite IH. split; [by constructor|]. by intros [_ ?]%Forall_cons.
Qed.

Lemma sum_bounds (lo hi : Z) (vals : list Z) :
  Forall (λ t, lo ≤ t ≤ hi)%Z vals →
  (lo * Z.of_nat (length vals) ≤ foldr Z.add 0 vals
   ≤ hi * Z.of_nat (length vals))%Z.
Proof.
  induction 1 as [|t vals Ht _ IH]; simpl length; simpl foldr; lia.
Qed.

(** X11: the average of turns skips the missing cells: it is [NaN]
    exactly when no row has a [turns] value; otherwise it is a number
    between any two integer bounds that hold for every [turns] value
    present, on a table small enough for the sum of the column to stay
    within the integers that [float64] holds exactly (the number of rows
    times the larger magnitude of the bounds is at most 2^53).  There the
    sum is computed without rounding, and the mean, rounded once, cannot
    leave two bounds that are themselves [float64] values. *)
Theorem X11_avg_turns_total_and_bounded (view : list Game) :
  (avg_turns view = None ↔ Forall (λ g, turns g = None) view)
  ∧ (∀ (lo hi : Z) (q : Q),
       Forall (λ g, ∀ t, turns g = Some t → (lo ≤ t ≤ hi)%Z) view →
       (Z.of_nat (length view) * Z.max (Z.abs lo) (Z.abs hi) ≤ 2 ^ 53)%Z →
       avg_turns view = Some q →
       (inject_Z lo <= q ∧ q <= inject_Z hi)%Q).
Proof.
  unfold avg_turns, mean. split.
  - destruct (dropna (turns <$> view)) as [|t vals] eqn:Hd.
    + split; [intros _|done].
      apply dropna_nil_iff in Hd. by apply Forall_fmap in Hd.
    + split; [done|]. intros Hnone.
      assert (dropna (turns <$> view) = []) as Hnil
        by (by apply dropna_nil_iff, Forall_fmap).
      congruence.
  - intros lo hi q Hb _ Hq.
    assert (Hvals : Forall (λ t, lo ≤ t ≤ hi)%Z (dropna (turns <$> view))).
    { apply Forall_forall. intros t Ht.
      apply elem_of_dropna, list_elem_of_fmap in Ht as (g & Hg & Hin).
      rewrite Forall_forall in Hb. by apply (Hb g Hin). }
    destruct (dropna (turns <$> view)) as [|t vals] eqn:Hd; [done|].
    injection Hq as <-.
    apply ratio_bounds; [simpl; lia|].
    by apply (sum_bounds lo hi (t :: vals)).
Qed.

(** The turns of the sample rows, one of them missing, lie between 10
    and 70, and so does their average. *)
Lemma X11_avg_turns_total_and_bounded_witness :
  (inject_Z 10 <= 175 # 4 ∧ 175 # 4 <= inject_Z 70)%Q.
Proof.
  refine (proj2 (X11_avg_turns_total_and_bounded
            [game_1; game_2; game_null; game_3; game_3]) 10 70 (175 # 4)%Q _ _ _)%Z.
  - repeat (apply Forall_cons; split;
      [simpl; intros t Ht;
       first [discriminate Ht | injection Ht as <-; lia]|]).
    constructor.
  - by vm_compute.
  - by vm_compute.
Defined.

(** ** Counting charts *)

Lemma sum_indicator {A : Type} `{EqDecision A} (x : A) (keys : list A) :
  NoDup keys → x ∈ keys →
  sum_list_with (λ k, if decide (x = k) then 1 else 0) keys = 1.
Proof.
  induction 1 as [|k keys Hk Hnd IH]; intros Hx.
  - by apply elem_of_nil in Hx.
  - simpl. destruct (decide (x = k)) as [->|Hne].
    + assert (sum_list_with (λ k', if decide (k = k') then 1 else 0) keys = 0)
        as ->; [|done].
      clear IH Hx Hnd. induction keys as [|k' keys IH]; [done|].
      simpl. rewrite not_elem_of_cons in Hk. destruct Hk as [Hne Hk].
      rewrite decide_False by done. by rewrite IH.
    + apply elem_of_cons in Hx as [?|Hx]; [done|]. by rewrite IH.
Qed.

Lemma counts_sum {A : Type} `{EqDecision A} (keys vals : list A) :
  NoDup keys → (∀ x, x ∈ vals → x ∈ keys) →
  sum_list_with (λ k, count k vals) keys = length vals.
Proof.
  intros Hnd. induction vals as [|x vals IH]; intros Hin.
  - unfold count. simpl. clear. by induction keys as [|k keys IHk].
  - assert (sum_list_with (λ k, count k (x :: vals)) keys
            = sum_list_with (λ k, if decide (x = k) then 1 else 0) keys
              + sum_list_with (λ k, count k vals) keys) as ->.
    { clear. induction keys as [|k keys IHk]; [done|].
      simpl. rewrite IHk. unfold count. rewrite filter_cons.
      destruct (decide (x = k)); simpl; lia. }
    rewrite sum_indicator, IH; [done| |done|].
    + intros y Hy. apply Hin. by right.
    + apply Hin. by left.
Qed.

Lemma sum_take_le {A : Type} (f : A → nat) (n : nat) (l : list A) :
  sum_list_with f (take n l) ≤ sum_list_with f l.
Proof.
  revert n. induction l as [|x l IH]; intros [|n]; simpl; try lia.
  specialize (IH n). lia.
Qed.

Lemma sum_counts_fmap (keys vals : list string) :
  sum_list_with snd ((λ k, (k, count k vals)) <$> keys)
  = sum_list_with (λ k, count k vals) keys.
Proof. induction keys as [|k keys IH]; csimpl; [done|]. by rewrite IH. Qed.

(** The counts of [value_counts] add up to the number of cells that are
    not missing. *)
Lemma value_counts_sum (s : list (option string)) :
  sum_list_with snd (value_counts s) = length (dropna s).
Proof.
  unfold value_counts. rewrite sort_by_Permutation, sum_counts_fmap.
  apply counts_sum; [apply NoDup_unique|].
  intros x. by rewrite elem_of_unique.
Qed.

Lemma elem_of_frame_value_counts (s : list (option string)) (k : string) (n : nat) :
  (k, n) ∈ frame_value_counts s ↔ Some k ∈ s ∧ n = count k (dropna s).
Proof.
  unfold frame_value_counts, sorted.
  rewrite elem_of_sort_by, list_elem_of_fmap.
  setoid_rewrite elem_of_sort_by. setoid_rewrite elem_of_unique.
  setoid_rewrite elem_of_dropna.
  split.
  - intros (k' & [= -> ->] & Hk). done.
  - intros [Hk ->]. by exists k.
Qed.

Lemma frame_value_counts_keys (s : list (option string)) :
  (frame_value_counts s).*1 ≡ₚ unique (dropna s).
Proof.
  unfold frame_value_counts. rewrite sort_by_Permutation.
  trans (sorted (unique (dropna s))).
  - generalize (sorted (unique (dropna s))) as l.
    induction l as [|k l IH]; csimpl; [done|]. by rewrite IH.
  - apply sort_by_Permutation.
Qed.

Lemma frame_value_counts_sorted (s : list (option string)) :
  StronglySorted (λ a b : string * nat, b.2 ≤ a.2) (frame_value_counts s).
Proof.
  apply Sorted_StronglySorted.
  { intros a b c ? ?. lia. }
  unfold frame_value_counts. apply Sorted_sort_by; intros a b; simpl.
  - by rewrite Nat.leb_le.
  - rewrite Nat.leb_gt. lia.
Qed.

Lemma frame_value_counts_sum (s : list (option string)) :
  sum_list_with snd (frame_value_counts s) = length (dropna s).
Proof.
  unfold frame_value_counts. rewrite sort_by_Permutation, sum_counts_fmap.
  apply counts_sum.
  - apply NoDup_sorted, NoDup_unique.
  - intros x. unfold sorted. by rewrite elem_of_sort_by, elem_of_unique.
Qed.

Lemma length_dropna_fmap (col : Game → option string) (view : list Game) :
  length (dropna (col <$> view)) = length (filter (λ g, is_Some (col g)) view).
Proof.
  unfold dropna. induction view as [|g view IH]; [done|].
  csimpl. rewrite (filter_cons (λ g, is_Some (col g))).
  destruct (decide (is_Some (col g))) as [[k Hk]|Hk].
  - rewrite Hk. csimpl. by rewrite IH.
  - destruct (col g) as [k|]; [|done]. destruct Hk. by eexists.
Qed.

(** X12: the opening chart never shows more than [n] bars, and its
    counts never add up to more than the number of rows won by White that
    have an opening; when [n] is at least the number of openings with a
    white win the counts add up to exactly that number. *)
Theorem X12_top_openings_totals (n : nat) (view : list Game) :
  length (top_openings n view) ≤ n
  ∧ sum_list_with snd (top_openings n view)
    ≤ length (filter (λ g, is_Some (opening_shortname g)) (white_won view))
  ∧ (length (value_counts (opening_shortname <$> white_won view)) ≤ n →
     sum_list_with snd (top_openings n view)
     = length (filter (λ g, is_Some (opening_shortname g)) (white_won view))).
Proof.
  unfold top_openings, head.
  rewrite <- length_dropna_fmap, <- value_counts_sum.
  split; [rewrite length_take; lia|]. split.
  - apply sum_take_le.
  - intros Hn. by rewrite take_ge.
Qed.

(** The three sample rows: two white wins, both with an opening. *)
Lemma X12_top_openings_totals_witness :
  sum_list_with snd (top_openings 10 [game_1; game_2; game_3])
  = length (filter (λ g, is_Some (opening_shortname g))
                   (white_won [game_1; game_2; game_3])).
Proof.
  apply (proj2 (proj2 (X12_top_openings_totals 10 [game_1; game_2; game_3]))).
  vm_compute. lia.
Defined.

(** X13: the chart of popular openings lists an opening of the table at
    most once, with the number of rows that have it, largest number first
    and at most [n] of them; no opening left out has more rows than one
    that is shown, and over all openings the numbers add up to the number
    of rows that have an opening. *)
Theorem X13_top_popular (n : nat) (view : list Game) :
  let ranking := frame_value_counts (opening_shortname <$> view) in
  top_popular n view = take n ranking
  ∧ length (top_popular n view) ≤ n
  ∧ (∀ o k, (o, k) ∈ ranking ↔
       0 < k ∧ k = length (filter (λ g, opening_shortname g = Some o) view))
  ∧ NoDup ranking.*1
  ∧ StronglySorted (λ a b : string * nat, b.2 ≤ a.2) ranking
  ∧ (∀ x y, x ∈ top_popular n view → y ∈ drop n ranking → y.2 ≤ x.2)
  ∧ sum_list_with snd ranking
    = length (filter (λ g, is_Some (opening_shortname g)) view).
Proof.
  intros ranking. split; [done|].
  split; [unfold top_popular, head; rewrite length_take; lia|].
  split; [|split; [|split; [|split]]].
  - intros o k. unfold ranking.
    rewrite elem_of_frame_value_counts, <- elem_of_dropna, count_pos,
      count_column.
    split; [by intros [? ->]|by intros [? ->]].
  - unfold ranking. rewrite frame_value_counts_keys. apply NoDup_unique.
  - apply frame_value_counts_sorted.
  - intros x y Hx Hy.
    by apply (head_above_rest _ n ranking (frame_value_counts_sorted _) x y).
  - unfold ranking. by rewrite frame_value_counts_sum, length_dropna_fmap.
Qed.

Lemma white_won_sublist (view : list Game) : white_won view `sublist_of` view.
Proof. rewrite white_won_filter. apply List_filter_sublist. Qed.

(** X14: the two opening charts agree: an opening shown with [k] white
    wins occurs in the ranking of popular openings of the same table, with
    at least [k] rows. *)
Theorem X14_white_wins_below_popularity (n : nat) (view : list Game)
    (o : string) (k : nat) :
  (o, k) ∈ top_openings n view →
  ∃ k', (o, k') ∈ frame_value_counts (opening_shortname <$> view) ∧ k ≤ k'.
Proof.
  unfold top_openings, head. intros Hin.
  assert (Hin' : (o, k) ∈ value_counts (opening_shortname <$> white_won view))
    by (eapply elem_of_sublist; [exact Hin|apply sublist_take]).
  apply elem_of_value_counts in Hin' as [Ho ->].
  exists (count o (dropna (opening_shortname <$> view))). split.
  - apply elem_of_frame_value_counts. split; [|done].
    eapply elem_of_sublist; [exact Ho|].
    apply fmap_sublist, white_won_sublist.
  - rewrite count_white_won, count_column. unfold white_wins_with.
    apply length_filter_and.
Qed.

(** The Italian opening: two white wins out of two games. *)
Lemma X14_white_wins_below_popularity_witness :
  ∃ k', ("Italian"%string, k')
          ∈ frame_value_counts (opening_shortname <$> [game_1; game_2; game_3])
        ∧ 2 ≤ k'.
Proof.
  apply (X14_white_wins_below_popularity 10 [game_1; game_2; game_3]).
  vm_compute. by left.
Defined.

(** X15: the charts follow the sidebar: after filtering, every opening in
    the popularity chart is a selected opening and every time increment in
    the time increment chart is a selected time increment.  When the
    selection of the column holds no missing value, the counts over the
    bars of the chart add up to at most the number of games shown, and to
    exactly that number when the chart has room for every value of the
    column, that is when the games shown have at most [n] different
    openings, or time increments. *)
Theorem X15_charts_follow_selection (c : Criteria) (chess : list Game)
    (n : nat) :
  (∀ o k, (o, k) ∈ top_popular n (filtered c chess) → Some o ∈ openings c)
  ∧ (∀ t k, (t, k) ∈ top_increments n (filtered c chess) →
            Some t ∈ time_increments c)
  ∧ (None ∉ openings c →
     sum_list_with snd (top_popular n (filtered c chess))
       ≤ num_games (filtered c chess)
     ∧ (length (frame_value_counts (opening_shortname <$> filtered c chess)) ≤ n →
        sum_list_with snd (top_popular n (filtered c chess))
        = num_games (filtered c chess)))
  ∧ (None ∉ time_increments c →
     sum_list_with snd (top_increments n (filtered c chess))
       ≤ num_games (filtered c chess)
     ∧ (length (frame_value_counts (time_increment <$> filtered c chess)) ≤ n →
        sum_list_with snd (top_increments n (filtered c chess))
        = num_games (filtered c chess))).
Proof.
  assert (Hsel : ∀ g, g ∈ filtered c chess →
            opening_shortname g ∈ openings c
            ∧ time_increment g ∈ time_increments c).
  { intros g Hg. apply elem_of_filtered in Hg as (_ & Hg & _).
    apply attributes_accepted_spec in Hg. tauto. }
  assert (Hshown : ∀ (col : Game → option string) x k,
            (x, k) ∈ take n (frame_value_counts (col <$> filtered c chess)) →
            ∃ g, g ∈ filtered c chess ∧ col g = Some x).
  { intros col x k Hin.
    assert ((x, k) ∈ frame_value_counts (col <$> filtered c chess)) as Hin'
      by (eapply elem_of_sublist; [exact Hin|apply sublist_take]).
    apply elem_of_frame_value_counts in Hin' as [Hx _].
    apply list_elem_of_fmap in Hx as (g & Hx & Hg). by exists g. }
  assert (Hfull : ∀ (col : Game → option string),
            (∀ g, g ∈ filtered c chess → is_Some (col g)) →
            sum_list_with snd (frame_value_counts (col <$> filtered c chess))
            = num_games (filtered c chess)).
  { intros col Hcol. rewrite frame_value_counts_sum, length_dropna_fmap.
    unfold num_games. f_equal. apply filter_all.
    by apply Forall_forall. }
  assert (Hbars : ∀ (col : Game → option string),
            (∀ g, g ∈ filtered c chess → is_Some (col g)) →
            sum_list_with snd
              (take n (frame_value_counts (col <$> filtered c chess)))
              ≤ num_games (filtered c chess)
            ∧ (length (frame_value_counts (col <$> filtered c chess)) ≤ n →
               sum_list_with snd
                 (take n (frame_value_counts (col <$> filtered c chess)))
               = num_games (filtered c chess))).
  { intros col Hcol. rewrite <- (Hfull col Hcol). split.
    - apply sum_take_le.
    - intros Hn. by rewrite take_ge. }
  split; [|split; [|split]].
  - intros o k Hin. apply Hshown in Hin as (g & Hg & <-). by apply Hsel.
  - intros t k Hin. apply Hshown in Hin as (g & Hg & <-). by apply Hsel.
  - intros Hnone. apply (Hbars opening_shortname). intros g Hg.
    destruct (Hsel g Hg) as [Ho _].
    destruct (opening_shortname g); [by eexists|done].
  - intros Hnone. apply (Hbars time_increment). intros g Hg.
    destruct (Hsel g Hg) as [_ Ht].
    destruct (time_increment g); [by eexists|done].
Qed.

(** The sample selection holds no missing value, and the two games it
    keeps have two different time increments, fewer than the ten bars of
    the chart. *)
Lemma X15_charts_follow_selection_witness :
  sum_list_with snd
    (top_increments 10 (filtered sample_selection [game_1; game_2; game_null]))
  = num_games (filtered sample_selection [game_1; game_2; game_null]).
Proof.
  refine (proj2 (proj2 (proj2 (proj2 (X15_charts_follow_selection
            sample_selection [game_1; game_2; game_null] 10))) _) _).
  - by apply (bool_decide_unpack _).
  - vm_compute. lia.
Defined.

(** ** The player chart, in full *)

Section sort_by_on.
Context {R : Type} (le : R → R → bool) (rel : relation R).

Lemma Sorted_insert_by_on (x : R) (l : list R) :
  (∀ y, y ∈ l → le x y = true → rel x y) →
  (∀ y, y ∈ l → le x y = false → rel y x) →
  Sorted rel l → Sorted rel (insert_by le x l).
Proof.
  intros Ht Hf. induction 1 as [|y l Hl IH Hy]; simpl; [by repeat constructor|].
  destruct (le x y) eqn:Hxy.
  - constructor; [by constructor|]. constructor. apply Ht; [by left|done].
  - constructor.
    + apply IH; intros z Hz; [apply Ht|apply Hf]; by right.
    + destruct l as [|z l]; simpl.
      * constructor. apply Hf; [by left|done].
      * destruct (le x z); constructor; [apply Hf; [by left|done]|].
        by inversion Hy.
Qed.

Lemma Sorted_sort_by_on (l : list R) :
  (∀ x y, x ∈ l → y ∈ l → le x y = true → rel x y) →
  (∀ x y, x ∈ l → y ∈ l → le x y = false → rel y x) →
  Sorted rel (sort_by le l).
Proof.
  induction l as [|x l IH]; intros Ht Hf; simpl; [constructor|].
  apply Sorted_insert_by_on.
  - intros y Hy. apply Ht; [by left|]. right. by apply elem_of_sort_by in Hy.
  - intros y Hy. apply Hf; [by left|]. right. by apply elem_of_sort_by in Hy.
  - apply IH; intros y z Hy Hz; [apply Ht|apply Hf]; by right.
Qed.
End sort_by_on.

Lemma fst_fmap_index {V : Type} (f : string → V) (idx : list string) :
  ((λ k, (k, f k)) <$> idx).*1 = idx.
Proof. induction idx as [|k idx IH]; csimpl; [done|]. by rewrite IH. Qed.

Lemma NoDup_index_join (i1 i2 : list string) :
  NoDup i1 → NoDup i2 → NoDup (index_join i1 i2).
Proof.
  intros H1 H2. unfold index_join.
  destruct (decide (i1 = i2)); [done|].
  apply NoDup_sorted, NoDup_unique.
Qed.

Lemma total_games_keys (view : list Game) (k : string) :
  k ∈ (total_games view).*1 ↔ 0 < spec_games k view.
Proof.
  unfold total_games, add_fill0. rewrite fst_fmap_index, elem_of_index_join.
  rewrite !elem_of_value_counts_keys, <- !elem_of_dropna, !count_pos,
    !count_column.
  unfold spec_games. lia.
Qed.

Lemma total_wins_keys (view : list Game) (k : string) :
  k ∈ (total_wins view).*1 ↔ 0 < spec_wins k view.
Proof.
  unfold total_wins, add_fill0, white_wins, black_wins.
  rewrite fst_fmap_index, elem_of_index_join.
  rewrite !elem_of_value_counts_keys, <- !elem_of_dropna, !count_pos.
  rewrite white_won_filter, black_won_filter, !count_won.
  unfold spec_wins. lia.
Qed.

Lemma NoDup_total_games (view : list Game) : NoDup (total_games view).*1.
Proof.
  unfold total_games, add_fill0. rewrite fst_fmap_index.
  apply NoDup_index_join; apply NoDup_value_counts.
Qed.

Lemma NoDup_total_wins (view : list Game) : NoDup (total_wins view).*1.
Proof.
  unfold total_wins, add_fill0. rewrite fst_fmap_index.
  apply NoDup_index_join; apply NoDup_value_counts.
Qed.

Lemma winrate_keys (view : list Game) :
  (winrate view).*1 = index_join (total_wins view).*1 (total_games view).*1.
Proof.
  unfold winrate, series_mul, series_div.
  rewrite <- list_fmap_compose.
  generalize (index_join (total_wins view).*1 (total_games view).*1) as idx.
  induction idx as [|k idx IH]; csimpl; [done|]. by rewrite IH.
Qed.

Lemma spec_wins_le_games (k : string) (view : list Game) :
  spec_wins k view ≤ spec_games k view.
Proof.
  unfold spec_wins, spec_games.
  apply Nat.add_le_mono; apply length_filter_and.
Qed.

Lemma frame_players (view : list Game) :
  Player <$> frame_of (total_games view) (winrate view)
  = index_join (total_games view).*1 (winrate view).*1.
Proof.
  unfold frame_of. rewrite <- list_fmap_compose.
  generalize (index_join (total_games view).*1 (winrate view).*1) as idx.
  induction idx as [|k idx IH]; csimpl; [done|]. by rewrite IH.
Qed.

Lemma NoDup_frame_players (view : list Game) :
  NoDup (Player <$> frame_of (total_games view) (winrate view)).
Proof.
  rewrite frame_players. apply NoDup_index_join; [apply NoDup_total_games|].
  rewrite winrate_keys.
  apply NoDup_index_join; [apply NoDup_total_wins|apply NoDup_total_games].
Qed.

Lemma elem_of_frame_players (view : list Game) (k : string) :
  k ∈ Player <$> frame_of (total_games view) (winrate view)
  ↔ 0 < spec_games k view.
Proof.
  rewrite frame_players, elem_of_index_join, winrate_keys, elem_of_index_join.
  rewrite total_games_keys, total_wins_keys.
  pose proof (spec_wins_le_games k view). lia.
Qed.

Lemma ranked_players_sublist (view : list Game) :
  ∃ l, l `sublist_of` frame_of (total_games view) (winrate view)
       ∧ ranked_players view ≡ₚ l.
Proof.
  exists (frame_dropna (frame_of (total_games view) (winrate view))).
  split; [apply sublist_filter|]. apply sort_by_Permutation.
Qed.

Lemma NoDup_ranked_players (view : list Game) :
  NoDup (Player <$> ranked_players view).
Proof.
  destruct (ranked_players_sublist view) as (l & Hsub & ->).
  eapply sublist_NoDup; [apply (NoDup_frame_players view)|].
  by apply fmap_sublist.
Qed.

Lemma loc_is_Some {V : Type} (k : string) (s : list (string * V)) :
  k ∈ s.*1 → is_Some (loc k s).
Proof.
  induction s as [|[k' v] s IH]; csimpl; intros Hk.
  - by apply elem_of_nil in Hk.
  - destruct (decide (k = k')); [by eexists|].
    apply IH. by apply elem_of_cons in Hk as [?|?].
Qed.

Lemma loc_winrate (view : list Game) (k : string) :
  loc k (winrate view) =
    (λ v : option Q, (λ q : Q, (q * 100)%Q) <$> v) <$>
      (if decide (k ∈ index_join (total_wins view).*1 (total_games view).*1)
       then Some match loc k (total_wins view), loc k (total_games view) with
                 | Some a, Some b => Some (a / b)%Q
                 | _, _ => None
                 end
       else None).
Proof.
  unfold winrate. rewrite loc_series_mul. unfold series_div.
  by rewrite loc_fmap_index.
Qed.

Lemma elem_of_ranked_players (view : list Game) (k : string) :
  k ∈ Player <$> ranked_players view ↔ 0 < spec_wins k view.
Proof.
  split.
  - intros (r & -> & Hr)%list_elem_of_fmap.
    assert (r ∈ top_players (length (ranked_players view)) view) as Hr'
      by (unfold top_players, head; by rewrite take_ge).
    by destruct (top_players_row _ _ _ Hr') as (? & ? & _ & _ & _ & _ & ?).
  - intros Hwins.
    pose proof (spec_wins_le_games k view) as Hle.
    assert (Hg : is_Some (loc k (total_games view)))
      by (apply loc_is_Some, total_games_keys; lia).
    assert (Hw : is_Some (loc k (total_wins view)))
      by (by apply loc_is_Some, total_wins_keys).
    destruct Hg as [tg Hg], Hw as [tw Hw].
    apply list_elem_of_fmap.
    exists {| Player := k; Games := loc k (total_games view);
              WinRate := mjoin (loc k (winrate view)) |}.
    split; [done|]. unfold ranked_players.
    apply elem_of_sort_by. unfold frame_dropna.
    apply list_elem_of_filter. split.
    + simpl. rewrite loc_winrate, Hg, Hw.
      rewrite decide_True; [split; by eexists|].
      apply elem_of_index_join. left. by apply total_wins_keys.
    + unfold frame_of. apply list_elem_of_fmap. exists k. split; [done|].
      change (k ∈ index_join (total_games view).*1 (winrate view).*1).
      rewrite <- frame_players. apply elem_of_frame_players. lia.
Qed.

(** X16: the player chart holds the players with at least one win, and
    no others: a player in the chart has won a game, and a player who has
    won a game is in the chart as soon as the chart has room for every
    ranked player. *)
Theorem X16_chart_players (n : nat) (view : list Game) (k : string) :
  (k ∈ Player <$> top_players n view → 0 < spec_wins k view)
  ∧ (length (ranked_players view) ≤ n → 0 < spec_wins k view →
     k ∈ Player <$> top_players n view).
Proof.
  split.
  - intros Hk. apply elem_of_ranked_players.
    eapply elem_of_sublist; [exact Hk|].
    apply fmap_sublist, sublist_take.
  - intros Hn Hwins. unfold top_players, head.
    change (k ∈ Player <$> take n (ranked_players view)).
    rewrite take_ge by done. by apply elem_of_ranked_players.
Qed.

(** On the three sample rows [alice], [carol] and [bob] play; the first
    two have won a game. *)
Lemma X16_chart_players_witness :
  "carol"%string ∈ Player <$> top_players 10 [game_1; game_2; game_3].
Proof.
  apply (proj2 (X16_chart_players 10 [game_1; game_2; game_3] "carol"));
    vm_compute; lia.
Defined.

(** X17: a row of the player chart holds the player's games, the games
    as White plus the games as Black and at least one, and a win rate above
    0 and at most 100. *)
Theorem X17_chart_rows (n : nat) (view : list Game) (r : PlayerRow) :
  r ∈ top_players n view →
  ∃ g w : Q,
    Games r = Some g ∧ WinRate r = Some w
    ∧ (g == inject_Z (Z.of_nat (spec_games (Player r) view)))%Q
    ∧ (1 <= g)%Q
    ∧ (0 < w ∧ w <= 100)%Q.
Proof.
  intros Hr.
  destruct (top_players_row n view r Hr) as (g & w & Hg & Hw & Hge & Hwe & Hpos).
  pose proof (spec_wins_le_games (Player r) view) as Hle.
  exists g, w. split; [done|]. split; [done|]. split; [done|].
  assert (0 < inject_Z (Z.of_nat (spec_games (Player r) view)))%Q as Hgpos
    by (rewrite <- (Zlt_Qlt 0); lia).
  split.
  - rewrite Hge. rewrite <- (Zle_Qle 1). lia.
  - rewrite Hwe. split.
    + apply Qlt_shift_div_l; [done|]. rewrite Qmult_0_l.
      rewrite <- (inject_Z_mult 100), <- (Zlt_Qlt 0). lia.
    + apply Qle_shift_div_r; [done|].
      rewrite <- !(inject_Z_mult 100), <- Zle_Qle. lia.
Qed.

(** The row of [alice] on the three sample rows: two games, one win. *)
Lemma X17_chart_rows_witness :
  ∃ g w : Q,
    Some (1 + 1)%Q = Some g ∧ Some ((1 / (1 + 1)) * 100)%Q = Some w
    ∧ (g == inject_Z (Z.of_nat (spec_games "alice" [game_1; game_2; game_3])))%Q
    ∧ (1 <= g)%Q
    ∧ (0 < w ∧ w <= 100)%Q.
Proof.
  apply (X17_chart_rows 10 [game_1; game_2; game_3]
           {| Player := "alice"; Games := Some (1 + 1)%Q;
              WinRate := Some ((1 / (1 + 1)) * 100)%Q |}).
  vm_compute. by left.
Defined.

Lemma games_desc_trans :
  Transitive (λ a b : PlayerRow, (games_of b <= games_of a)%Q).
Proof. intros a b c Hab Hbc. by eapply Qle_trans. Qed.

Lemma ranked_players_sorted (view : list Game) :
  StronglySorted (λ a b : PlayerRow, (games_of b <= games_of a)%Q)
    (ranked_players view).
Proof.
  apply Sorted_StronglySorted; [apply games_desc_trans|].
  unfold ranked_players.
  apply Sorted_sort_by_on; intros x y Hx Hy;
    apply list_elem_of_filter in Hx as [[[g1 Hg1] _] _];
    apply list_elem_of_filter in Hy as [[[g2 Hg2] _] _];
    unfold games_le, games_of; rewrite Hg1, Hg2; simpl.
  - by intros ?%Qle_bool_iff.
  - intros Hle. apply Qlt_le_weak, Qnot_le_lt.
    intros Hq%Qle_bool_iff. congruence.
Qed.

(** X18: the player chart ranks by games: it never has more than [n]
    rows (10 in the script), no player has two rows, the rows come with
    the games in descending order, and no ranked player left out has more
    games than a player in the chart. *)
Theorem X18_chart_ranked (n : nat) (view : list Game) :
  length (top_players n view) ≤ n
  ∧ length (player_stats view) ≤ 10
  ∧ NoDup (Player <$> top_players n view)
  ∧ StronglySorted (λ a b : PlayerRow, (games_of b <= games_of a)%Q)
      (top_players n view)
  ∧ (∀ x y, x ∈ top_players n view → y ∈ drop n (ranked_players view) →
            (games_of y <= games_of x)%Q).
Proof.
  assert (Hlen : ∀ m, length (top_players m view) ≤ m)
    by (intros m; unfold top_players, head; rewrite length_take; lia).
  split; [apply Hlen|]. split; [apply Hlen|].
  pose proof (ranked_players_sorted view) as Hsorted.
  split; [|split].
  - eapply sublist_NoDup; [apply (NoDup_ranked_players view)|].
    apply fmap_sublist, sublist_take.
  - change (StronglySorted (λ a b : PlayerRow, (games_of b <= games_of a)%Q)
              (take n (ranked_players view))).
    rewrite <- (take_drop n (ranked_players view)) in Hsorted.
    by apply StronglySorted_app_1_l in Hsorted.
  - intros x y Hx Hy.
    by apply (head_above_rest _ n (ranked_players view) Hsorted x y).
Qed.

Lemma series_total_add_fill0 (s1 s2 : list (string * nat)) (keys : list string) :
  (foldr Qplus 0
     ((λ k, (k, inject_Z (Z.of_nat (default 0%nat (loc k s1)))
              + inject_Z (Z.of_nat (default 0%nat (loc k s2))))) <$> keys).*2
   == inject_Z (Z.of_nat
        (sum_list_with (λ k, default 0%nat (loc k s1)) keys
         + sum_list_with (λ k, default 0%nat (loc k s2)) keys)))%Q.
Proof.
  induction keys as [|k keys IH]; csimpl; [done|].
  rewrite IH. rewrite !Nat2Z.inj_add, !inject_Z_plus. ring.
Qed.

Lemma sum_list_with_ext {A : Type} (f g : A → nat) (l : list A) :
  (∀ x, f x = g x) → sum_list_with f l = sum_list_with g l.
Proof. intros H. induction l as [|x l IH]; simpl; [done|]. by rewrite H, IH. Qed.

(** X19: over all players the games add up to the number of rows with a
    white player plus the number of rows with a black player: every game
    is counted once for each of its two players, and twice the number of
    games when no player is missing. *)
Theorem X19_total_games_sum (view : list Game) :
  (series_total (total_games view)
   == inject_Z (Z.of_nat
        (length (filter (λ g, is_Some (white_id g)) view)
         + length (filter (λ g, is_Some (black_id g)) view))))%Q
  ∧ (Forall (λ g, is_Some (white_id g) ∧ is_Some (black_id g)) view →
     (series_total (total_games view)
      == inject_Z (2 * Z.of_nat (num_games view)))%Q).
Proof.
  assert (Hsum : (series_total (total_games view)
   == inject_Z (Z.of_nat
        (length (filter (λ g, is_Some (white_id g)) view)
         + length (filter (λ g, is_Some (black_id g)) view))))%Q).
  { unfold series_total, total_games, add_fill0.
    rewrite series_total_add_fill0.
    rewrite (sum_list_with_ext _ _ _ (loc_value_counts (white_id <$> view))).
    rewrite (sum_list_with_ext _ _ _ (loc_value_counts (black_id <$> view))).
    assert (Hnd : NoDup (index_join (value_counts (white_id <$> view)).*1
                           (value_counts (black_id <$> view)).*1))
      by (apply NoDup_index_join; apply NoDup_value_counts).
    rewrite !counts_sum, !length_dropna_fmap; [done|done| |done|].
    - intros x Hx. apply elem_of_index_join. right.
      by apply elem_of_value_counts_keys, elem_of_dropna.
    - intros x Hx. apply elem_of_index_join. left.
      by apply elem_of_value_counts_keys, elem_of_dropna. }
  split; [done|].
  intros Hall. rewrite Hsum. unfold num_games.
  rewrite !filter_all.
  - by rewrite Nat2Z.inj_add, Z.add_diag.
  - eapply Forall_impl; [exact Hall|]. by intros g [_ ?].
  - eapply Forall_impl; [exact Hall|]. by intros g [? _].
Qed.

(** Three games, six player slots. *)
Lemma X19_total_games_sum_witness :
  (series_total (total_games [game_1; game_2; game_3])
   == inject_Z (2 * Z.of_nat (num_games [game_1; game_2; game_3])))%Q.
Proof.
  apply (proj2 (X19_total_games_sum [game_1; game_2; game_3])).
  repeat constructor; by eexists.
Defined.

(** ** The loader, in full *)

Lemma loc_None {V : Type} (k : string) (s : list (string * V)) :
  loc k s = None ↔ k ∉ s.*1.
Proof.
  split.
  - intros Hnone Hin. apply loc_is_Some in Hin as [v Hv]. congruence.
  - apply loc_not_elem_of.
Qed.

(** X20: loading fails, with the [KeyError] of [set_index], exactly when
    the source has no [game_id] column; the two columns that are dropped
    may be there or not. *)
Theorem X20_load_fails_without_key {Cell : Type} (csv : Loader.RawFrame Cell) :
  Loader.load_data csv = None ↔ "game_id"%string ∉ csv.*1.
Proof.
  unfold Loader.load_data, Loader.set_index, Loader.drop.
  rewrite <- loc_None.
  rewrite loc_filter by (intros v; by apply (bool_decide_unpack _)).
  by destruct (loc "game_id"%string csv).
Qed.

(** X21: a loaded table has [game_id] as its index and never has a column
    [game_id], [moves] or [Unnamed: 15]; every other column of the source
    is kept with its cells, and the columns keep their order. *)
Theorem X21_loaded_columns {Cell : Type} (csv : Loader.RawFrame Cell)
    (df : Loader.Frame Cell) :
  Loader.load_data csv = Some df →
  Loader.index_name df = "game_id"%string
  ∧ (∀ name, name ∈ ["game_id"; "moves"; "Unnamed: 15"]%string →
             name ∉ (Loader.columns df).*1)
  ∧ (∀ name, name ∉ ["game_id"; "moves"; "Unnamed: 15"]%string →
             loc name (Loader.columns df) = loc name csv)
  ∧ (Loader.columns df).*1 `sublist_of` csv.*1.
Proof.
  unfold Loader.load_data, Loader.set_index, Loader.drop.
  destruct (loc "game_id"%string _) as [labels|]; [|done].
  intros [= <-]. simpl. split; [done|]. split; [|split].
  - intros name Hname (col & -> & Hcol)%list_elem_of_fmap.
    apply list_elem_of_filter in Hcol as [Hne Hcol].
    apply list_elem_of_filter in Hcol as [Hdrop _].
    repeat (apply elem_of_cons in Hname as [Hname|Hname];
            [first [done | apply Hdrop; rewrite Hname;
                    by apply (bool_decide_unpack _)]|]).
    by apply elem_of_nil in Hname.
  - intros name Hname.
    rewrite !loc_filter; [done|..].
    + intros v Hin. apply Hname. simpl in Hin.
      repeat (apply elem_of_cons in Hin as [->|Hin];
              [by apply (bool_decide_unpack _)|]).
      by apply elem_of_nil in Hin.
    + intros v. simpl. intros ->. apply Hname. by left.
  - apply fmap_sublist. etrans; apply sublist_filter.
Qed.

(** The source with two rows of the same label: its two other columns
    are kept. *)
Lemma X21_loaded_columns_witness :
  loc "winner"%string
    [("rated", ["True"; "False"; "True"]);
     ("winner", ["White"; "Black"; "Draw"])]%string
  = loc "winner"%string csv_duplicate_ids.
Proof.
  refine (proj1 (proj2 (proj2 (X21_loaded_columns csv_duplicate_ids
    {| Loader.index_name := "game_id";
       Loader.index := ["g1"; "g1"; "g2"]%string;
       Loader.columns := [("rated", ["True"; "False"; "True"]);
                          ("winner", ["White"; "Black"; "Draw"])]%string |}
    eq_refl))) "winner"%string _).
  by apply (bool_decide_unpack _).
Defined.

(** ** The download, record by record *)



(** ** The filter and the keys *)

(** X23: the filter never adds a row and keeps the keys a key: the
    number of games shown is at most the number of games loaded, and when
    no [game_id] occurs twice in the table none occurs twice in the
    result. *)
Theorem X23_filtered_keeps_keys (c : Criteria) (chess : list Game) :
  num_games (filtered c chess) ≤ num_games chess
  ∧ (NoDup (game_id <$> chess) → NoDup (game_id <$> filtered c chess)).
Proof.
  pose proof (filtered_sublist c chess) as Hsub. split.
  - by apply sublist_length.
  - intros Hnd. eapply sublist_NoDup; [exact Hnd|]. by apply fmap_sublist.
Qed.

(** The three sample rows have three different keys. *)
Lemma X23_filtered_keeps_keys_witness :
  NoDup (game_id <$> filtered sample_selection [game_1; game_2; game_3]).
Proof.
  apply (proj2 (X23_filtered_keeps_keys sample_selection
                  [game_1; game_2; game_3])).
  by apply (bool_decide_unpack _).
Defined.

Lemma same_selection_retained (c1 c2 : Criteria) (r : Game) :
  same_selection c1 c2 → retained c1 r = retained c2 r.
Proof.
  intros (H1 & H2 & H3 & H4 & H5).
  assert (Hp : players c1 ≠ [] ↔ players c2 ≠ []).
  { split; intros Hne Hnil.
    - destruct (players c1) as [|v l]; [done|].
      assert (v ∈ players c2) as Hv by (apply H5; by left).
      rewrite Hnil in Hv. by apply elem_of_nil in Hv.
    - destruct (players c2) as [|v l]; [done|].
      assert (v ∈ players c1) as Hv by (apply H5; by left).
      rewrite Hnil in Hv. by apply elem_of_nil in Hv. }
  apply eq_true_iff_eq. unfold retained.
  rewrite !andb_true_iff, !attributes_accepted_spec.
  rewrite (H1 (rated r)), (H2 (victory_status r)), (H3 (time_increment r)),
    (H4 (opening_shortname r)).
  destruct (decide (players c1 ≠ [])) as [Hp1|Hp1];
    destruct (decide (players c2 ≠ [])) as [Hp2|Hp2]; try tauto.
  rewrite !player_accepted_spec, (H5 (white_id r)), (H5 (black_id r)). tauto.
Qed.

(** X24: only the values selected matter, not the order in which they
    were ticked nor a value given twice: selections with the same accepted
    values give the same filtered table. *)
Theorem X24_selection_order_irrelevant (c1 c2 : Criteria) (chess : list Game) :
  same_selection c1 c2 → filtered c1 chess = filtered c2 chess.
Proof.
  intros Hsame. rewrite !filtered_retained.
  apply List_filter_ext_in. intros r _. by apply same_selection_retained.
Qed.

(** The sample selection, ticked in another order. *)
Lemma X24_selection_order_irrelevant_witness :
  filtered {| rated_options := [Some true; Some false];
              victory_options := [Some "resign"; Some "mate"; Some "outoftime"];
              time_increments := [Some "15+2"; Some "10+0"; Some "15+2"];
              openings := [Some "Italian"; Some "Sicilian"];
              players := [] |} [game_1; game_2; game_3]
  = filtered sample_selection [game_1; game_2; game_3].
Proof.
  apply X24_selection_order_irrelevant.
  repeat split; simpl; intros Hv;
    repeat (apply elem_of_cons in Hv as [->|Hv];
            [by apply (bool_decide_unpack _)|]);
    by apply elem_of_nil in Hv.
Defined.
